(** * go-pg-migrations: the migration runner (migrate.go, rollback.go)

    A shallow embedding of the runner's three entry points, [migrate],
    [rollback] and [rollbackNamed], together with their helpers, over an
    explicit model of the database the runner talks to.

    The runner is stateful Go code whose every database call can fail.
    It is modelled in a state-and-error monad over a [World]:

    - the package-level slice [migrations] (the registry);
    - the database [Store]: the [migrations] table (the ledger), its
      serial counter, the single [migration_lock] row and the
      application's own schema, which the migration actions change;
    - a tick counter of database round trips, the trace of events that
      happened so far, and what was printed.

    The go-pg driver is an external collaborator.  Each of its calls that
    reaches the server is a primitive that first asks a fault oracle
    ([faults], indexed by the tick and the call) whether the call fails; a
    failing call changes nothing and returns the oracle's error.  The
    theorems quantify over the oracle, so they hold for every pattern of
    driver failures.  One call never reaches the server: the update of the
    lock row, which the sources build without a [Where] ([db_update_lock]).
    Because of it [acquireLock] gives no run the lock, and the parts of the
    runs that follow the taking of the lock ([migrate_locked],
    [rollback_locked], [rollbackNamed_locked]) are studied on their own. *)

From Stdlib Require Import ZArith String Ascii List Lia Bool.
From Stdlib Require Import DecimalString Sorted Permutation.
From stdpp Require Import base option list gmap strings.

Local Open Scope Z_scope.
Local Open Scope string_scope.

(** ** Go base types *)

(** A Go [error] is observed through its message. *)
Definition error := string.

(** [errors.New] *)
Definition errors_New (msg : string) : error := msg.

(** Modelled from the spec: the sentinel [ErrAlreadyLocked] is declared in
    a file of the package that is not part of these sources; the spec calls
    the error kind [AlreadyLocked]. *)
Definition ErrAlreadyLocked : error := errors_New "AlreadyLocked".

(** The error with which go-pg refuses, before anything is sent to the
    server, an UPDATE or a DELETE that was given no [Where]. *)
Definition errUpdateWithoutWhere : error :=
  errors_New "pg: Update and Delete queries require Where clause (try WherePK)".

(** Modelled from the spec: the identifier of the single lock row
    ("single row keyed by a fixed sentinel identifier"). *)
Definition lockID : string := "lock".

(** Go's [int32]: a [Z] with two's-complement wrap-around. *)
Definition wrap32 (z : Z) : Z := (z + 2 ^ 31) mod 2 ^ 32 - 2 ^ 31.
Definition add32 (a b : Z) : Z := wrap32 (a + b).
Definition max_int32 : Z := 2 ^ 31 - 1.

(** The line feed that ends the format strings. *)
Definition LF : string := String (ascii_of_nat 10) EmptyString.

(** [fmt.Sprint] of an [int]. *)
Definition fmt_Sprint_int (n : Z) : string := NilZero.string_of_int (Z.to_int n).

(** [fmt.Errorf("%s: %s", name, err)] *)
Definition fmt_Errorf_name (name : string) (err : error) : error :=
  name ++ ": " ++ err.

(** A call of [fmt.Println], [fmt.Print] or [fmt.Printf], kept unrendered:
    the format string and its arguments. *)
Inductive fmt_arg :=
| ArgInt (n : Z)
| ArgString (s : string).

Inductive output :=
| Println (s : string)
| Print (s : string)
| Printf (format : string) (args : list fmt_arg).

(** ** The database *)

(** Modelled from the spec: a row of the ledger table, "columns [id]
    (identity), [name], [batch], [completed_at]".  The function-valued
    fields of the Go struct are not columns. *)
Record row := mkRow {
  row_id : Z;
  row_name : string;
  row_batch : Z;
  row_completed_at : Z
}.

(** The outcome of a Go call that returns [(T, error)]: a value, an error,
    or a panic (calling a [nil] function). *)
Inductive result (A : Type) :=
| Ok (a : A)
| Err (e : error)
| Panic.
Arguments Ok {A} a.
Arguments Err {A} e.
Arguments Panic {A}.

Section Runner.

(** The application's own schema, which migration actions read and write. *)
Context {Schema : Type}.

(** What the runner's database holds. *)
Record Store := mkStore {
  migrations_table : list row;   (* in ascending [id] order *)
  migrations_id_seq : Z;         (* next value of the serial [id] *)
  lock_is_locked : bool;         (* the row [lockID] of [migration_lock] *)
  schema : Schema
}.

(** A migration action, [func(orm.DB) error]: it is handed the database
    and returns [nil] ([None]) or an error. *)
Definition action := Store -> Store * option error.

(** Modelled from the spec: the struct [migration], declared outside these
    sources.  Its fields are the ones the sources read and write; a [nil]
    function value is [None]. *)
Record migration := mkMigration {
  ID : Z;
  Name : string;
  Batch : Z;
  CompletedAt : Z;
  Up : option action;
  Down : option action;
  DisableTransaction : bool
}.

(** Modelled from the spec: [MigrationOptions], of which the sources read
    one field. *)
Record MigrationOptions := mkMigrationOptions {
  opt_DisableTransaction : bool
}.

(** The driver's calls. *)
Inductive DBOp :=
| OpSelectMigrations                       (* SELECT .. FROM migrations ORDER BY id *)
| OpSelectLockForUpdate                    (* SELECT .. FROM migration_lock FOR UPDATE *)
| OpUpdateLock (locked : bool)             (* UPDATE migration_lock SET is_locked = ..; see [db_update_lock] *)
| OpSelectMaxBatch                         (* SELECT COALESCE(MAX(batch), 0) *)
| OpInsertMigration (name : string) (batch : Z)
| OpDeleteMigration (name : string)        (* DELETE .. WHERE name = .. *)
| OpBegin
| OpCommit
| OpRollback.

Inductive event :=
| EvDB (op : DBOp) (failure : option error)
| EvUp (name : string)
| EvDown (name : string).

Record World := mkWorld {
  migrations : list migration;   (* var migrations []migration *)
  db : Store;
  tick : nat;
  trace : list event;
  stdout : list output
}.

Definition set_migrations (ms : list migration) (w : World) : World :=
  mkWorld ms (db w) (tick w) (trace w) (stdout w).
Definition set_db (s : Store) (w : World) : World :=
  mkWorld (migrations w) s (tick w) (trace w) (stdout w).
Definition log_event (e : event) (w : World) : World :=
  mkWorld (migrations w) (db w) (tick w) (trace w ++ [e])%list (stdout w).
Definition next_tick (w : World) : World :=
  mkWorld (migrations w) (db w) (S (tick w)) (trace w) (stdout w).
Definition emit (o : output) (w : World) : World :=
  mkWorld (migrations w) (db w) (tick w) (trace w) (stdout w ++ [o])%list.

Definition set_migrations_table (t : list row) (s : Store) : Store :=
  mkStore t (migrations_id_seq s) (lock_is_locked s) (schema s).
Definition set_lock_is_locked (b : bool) (s : Store) : Store :=
  mkStore (migrations_table s) (migrations_id_seq s) b (schema s).

(** ** The monad *)

Definition M (A : Type) := World -> result A * World.

Definition ret {A} (a : A) : M A := fun w => (Ok a, w).
Definition fail {A} (e : error) : M A := fun w => (Err e, w).
Definition panic {A} : M A := fun w => (Panic, w).

(** [x, err := c; if err != nil { return err }; k x] *)
Definition bind {A B} (c : M A) (k : A -> M B) : M B := fun w =>
  match c w with
  | (Ok a, w1) => k a w1
  | (Err e, w1) => (Err e, w1)
  | (Panic, w1) => (Panic, w1)
  end.

(** [err := c; if err != nil { return h err }; k] *)
Definition bind_wrap {A B} (c : M A) (h : error -> error) (k : A -> M B) : M B :=
  fun w =>
  match c w with
  | (Ok a, w1) => k a w1
  | (Err e, w1) => (Err (h e), w1)
  | (Panic, w1) => (Panic, w1)
  end.

(** [defer cleanup(); body]: the deferred call runs when [body] is left, on
    every path, and its return value is dropped. *)
Definition defer {A} (cleanup : M unit) (body : M A) : M A := fun w =>
  let (r, w1) := body w in
  match cleanup w1 with
  | (Panic, w2) => (Panic, w2)
  | (_, w2) => (r, w2)
  end.

Definition modify (f : World -> World) : M unit := fun w => (Ok tt, f w).
Definition get {A} (f : World -> A) : M A := fun w => (Ok (f w), w).

#[local] Instance M_ret : MRet M := @ret.
#[local] Instance M_bind : MBind M := fun A B k c => bind c k.

(** ** The driver *)

(** The environment: which driver calls fail, and what the clock shows. *)
Variable faults : nat -> DBOp -> option error.
Variable clock : nat -> Z.

(** One round trip: ask the oracle, log the call, advance the tick. *)
Definition db_call (op : DBOp) : M unit := fun w =>
  let r := faults (tick w) op in
  let w1 := next_tick (log_event (EvDB op r) w) in
  match r with
  | None => (Ok tt, w1)
  | Some e => (Err e, w1)
  end.

Definition modify_db (f : Store -> Store) : M unit :=
  modify (fun w => set_db (f (db w)) w).

(** [time.Now()] *)
Definition time_Now : M Z := get (fun w => clock (tick w)).

(** Scanning a row into the Go struct: the fields that are not columns
    keep their zero values. *)
Definition scan (r : row) : migration :=
  mkMigration (row_id r) (row_name r) (row_batch r) (row_completed_at r)
              None None false.

(** [db.Model(&completed).Order("id").Select()] *)
Definition db_select_migrations : M (list migration) :=
  db_call OpSelectMigrations;;
  get (fun w => map scan (migrations_table (db w))).

(** [tx.Model(&l).For("UPDATE").Select()] for the lock row. *)
Definition db_select_lock_for_update : M bool :=
  db_call OpSelectLockForUpdate;;
  get (fun w => lock_is_locked (db w)).

(** [db.Model(&l).Update()] for the lock row (migrate.go, lines 147 and
    154).  The query is built with no [Where] and no [WherePK]; for such an
    UPDATE go-pg sends nothing to the server: the call returns
    [errUpdateWithoutWhere] and the row, whatever [l.IsLocked] was set to,
    stays as it is. *)
Definition db_update_lock (locked : bool) : M unit :=
  fail errUpdateWithoutWhere.

(** SQL [MAX(batch)]: [NULL] over no rows. *)
Definition sql_max_batch (t : list row) : option Z :=
  match t with
  | [] => None
  | r :: t' => Some (fold_left Z.max (map row_batch t') (row_batch r))
  end.

(** SQL [COALESCE(MAX(batch), 0)] *)
Definition sql_coalesce_max_batch (t : list row) : Z :=
  default 0 (sql_max_batch t).

Definition db_select_max_batch : M Z :=
  db_call OpSelectMaxBatch;;
  get (fun w => sql_coalesce_max_batch (migrations_table (db w))).

(** [db.Model(&m).Insert()]: the struct's [ID] is zero, so the row gets the
    next serial [id]; it goes to the end of the table. *)
Definition insert_row (m : migration) (s : Store) : Store :=
  mkStore (migrations_table s ++
             [mkRow (migrations_id_seq s) (Name m) (Batch m) (CompletedAt m)])%list
          (migrations_id_seq s + 1) (lock_is_locked s) (schema s).

Definition db_insert_migration (m : migration) : M unit :=
  db_call (OpInsertMigration (Name m) (Batch m));;
  modify_db (insert_row m).

(** [db.Model(&m).Where("name = ?", name).Delete()] *)
Definition delete_rows (name : string) (s : Store) : Store :=
  set_migrations_table
    (filter (fun r => row_name r ≠ name) (migrations_table s)) s.

Definition db_delete_migration (name : string) : M unit :=
  db_call (OpDeleteMigration name);;
  modify_db (delete_rows name).

(** [tx.RunInTransaction(ctx, fn)]: run [fn]; on an error or a panic roll
    back and pass it on; otherwise commit.  A transaction that does not
    commit leaves the store as it was when it began. *)
Definition tx_RunInTransaction (fn : M unit) : M unit := fun w =>
  let snapshot := db w in
  match fn w with
  | (Ok _, w1) =>
      match db_call OpCommit w1 with
      | (Ok _, w2) => (Ok tt, w2)
      | (Err e, w2) => (Err e, set_db snapshot w2)
      | (Panic, w2) => (Panic, set_db snapshot w2)
      end
  | (Err e, w1) =>
      let (_, w2) := db_call OpRollback w1 in
      (Err e, set_db snapshot w2)
  | (Panic, w1) =>
      let (_, w2) := db_call OpRollback w1 in
      (Panic, set_db snapshot w2)
  end.

(** [db.RunInTransaction(ctx, fn)]: begin, then the above. *)
Definition RunInTransaction (fn : M unit) : M unit :=
  db_call OpBegin;;
  tx_RunInTransaction fn.

(** Calling a migration's function value on the database handle. *)
Definition call (ev : event) (f : option action) : M unit :=
  match f with
  | None => panic
  | Some a => fun w =>
      let (s, r) := a (db w) in
      let w1 := log_event ev (set_db s w) in
      match r with
      | None => (Ok tt, w1)
      | Some e => (Err e, w1)
      end
  end.

(** ** Go library functions *)

(** [sort.Slice(s, less)], as an insertion sort.  (Go does not promise a
    stable sort; the facts below use only that the result is a sorted
    permutation.) *)
Fixpoint sort_insert (less : migration -> migration -> bool)
         (x : migration) (l : list migration) : list migration :=
  match l with
  | [] => [x]
  | y :: l' => if less y x then y :: sort_insert less x l' else x :: l
  end.

Definition sort_Slice (less : migration -> migration -> bool)
           (l : list migration) : list migration :=
  foldr (sort_insert less) [] l.

(** [strings.Replace(s, old, new, -1)] for a one-byte [old]. *)
Fixpoint strings_Replace (s : string) (old : ascii) (new : string) : string :=
  match s with
  | EmptyString => EmptyString
  | String c s' =>
      if Ascii.eqb c old then new ++ strings_Replace s' old new
      else String c (strings_Replace s' old new)
  end.

(** [strings.Split(s, sep)] for a one-byte [sep]; [cur] is the piece being
    read.  As in Go, the empty string splits into one empty piece. *)
Fixpoint split_from (cur : string) (s : string) (sep : ascii) : list string :=
  match s with
  | EmptyString => [cur]
  | String c s' =>
      if Ascii.eqb c sep then cur :: split_from EmptyString s' sep
      else split_from (cur ++ String c EmptyString) s' sep
  end.

Definition strings_Split (s : string) (sep : ascii) : list string :=
  split_from EmptyString s sep.

(** ** migrate.go *)

(** [UnregisterAll] *)
Definition UnregisterAll : M unit := modify (set_migrations []).

(** [Register] *)
Definition Register (name : string) (up down : option action)
           (opts : MigrationOptions) : M unit :=
  modify (fun w =>
    set_migrations
      (migrations w ++
         [mkMigration 0 name 0 0 up down (opt_DisableTransaction opts)])%list w).

(** [getCompletedMigrations] *)
Definition getCompletedMigrations : M (list migration) :=
  completed ← db_select_migrations;
  ret completed.

(** [filterMigrations] *)
Definition filterMigrations (all subset : list migration)
           (wantCompleted : bool) : list migration :=
  let subsetMap : gmap string bool :=
    fold_left (fun mp c => <[Name c := true]> mp) subset ∅ in
  fold_left
    (fun d a =>
       if Bool.eqb (default false (subsetMap !! Name a)) wantCompleted
       then (d ++ [a])%list else d)
    all [].

(** [acquireLock] *)
Definition acquireLock : M unit :=
  RunInTransaction (
    isLocked ← db_select_lock_for_update;
    if (isLocked : bool) then fail ErrAlreadyLocked
    else db_update_lock true).

(** [releaseLock] *)
Definition releaseLock : M unit :=
  db_update_lock false.

(** [getLastBatchNumber] *)
Definition getLastBatchNumber : M Z :=
  res ← db_select_max_batch;
  ret res.

Definition with_Batch (b : Z) (m : migration) : migration :=
  mkMigration (ID m) (Name m) b (CompletedAt m) (Up m) (Down m)
              (DisableTransaction m).
Definition with_CompletedAt (t : Z) (m : migration) : migration :=
  mkMigration (ID m) (Name m) (Batch m) t (Up m) (Down m)
              (DisableTransaction m).

(** The call of [m.Up] under the migration's transaction policy
    (migrate.go, lines 74-82). *)
Definition run_up (m : migration) : M unit :=
  if DisableTransaction m then call (EvUp (Name m)) (Up m)
  else RunInTransaction (call (EvUp (Name m)) (Up m)).

(** The body of the loop of [migrate] (lines 73-92). *)
Definition migrate_step (batch : Z) (m : migration) : M unit :=
  let m := with_Batch batch m in
  bind_wrap (run_up m) (fmt_Errorf_name (Name m)) (fun _ =>
  now ← time_Now;
  let m := with_CompletedAt now m in
  bind_wrap (db_insert_migration m) (fmt_Errorf_name (Name m)) (fun _ =>
  modify (emit (Printf ("Finished running %q" ++ LF) [ArgString (Name m)])))).

(** [for _, m := range uncompleted { ... }] *)
Fixpoint migrate_loop (batch : Z) (uncompleted : list migration) : M unit :=
  match uncompleted with
  | [] => ret tt
  | m :: rest => migrate_step batch m;; migrate_loop batch rest
  end.

Definition name_lt (a b : migration) : bool := String.ltb (Name a) (Name b).
Definition name_gt (a b : migration) : bool := String.ltb (Name b) (Name a).

(** The part of [migrate] that runs with the lock held (lines 63-95). *)
Definition migrate_locked (uncompleted : list migration) : M unit :=
  batch ← getLastBatchNumber;
  let batch := add32 batch 1 in
  modify (emit (Printf ("Running batch %d with %d migration(s)..." ++ LF)
                       [ArgInt batch; ArgInt (Z.of_nat (length uncompleted))]));;
  migrate_loop batch uncompleted;;
  ret tt.

(** [migrate] *)
Definition migrate (directory : string) : M unit :=
  modify (fun w => set_migrations (sort_Slice name_lt (migrations w)) w);;
  completed ← getCompletedMigrations;
  registered ← get migrations;
  let uncompleted := filterMigrations registered completed false in
  if (length uncompleted =? 0)%nat then
    modify (emit (Println "Migrations already up to date"));;
    ret tt
  else
    acquireLock;;
    defer releaseLock (migrate_locked uncompleted).

(** ** rollback.go *)

(** [getMigrationsForBatch] *)
Definition getMigrationsForBatch (migrations : list migration) (batch : Z)
  : list migration :=
  fold_left
    (fun m migration =>
       if Z.eqb (Batch migration) batch then (m ++ [migration])%list else m)
    migrations [].

(** The call of [m.Down] under the migration's transaction policy
    (rollback.go, lines 47-54 and 118-125). *)
Definition run_down (m : migration) : M unit :=
  if DisableTransaction m then call (EvDown (Name m)) (Down m)
  else RunInTransaction (call (EvDown (Name m)) (Down m)).

(** The body of the loops of [rollback] (lines 47-63) and of
    [rollbackNamed] (lines 118-134), which are the same text. *)
Definition rollback_step (m : migration) : M unit :=
  bind_wrap (run_down m) (fmt_Errorf_name (Name m)) (fun _ =>
  bind_wrap (db_delete_migration (Name m)) (fmt_Errorf_name (Name m)) (fun _ =>
  modify (emit (Printf ("Finished rolling back %q" ++ LF) [ArgString (Name m)])))).

(** [for _, m := range rollback { ... }] *)
Fixpoint rollback_loop (rollback : list migration) : M unit :=
  match rollback with
  | [] => ret tt
  | m :: rest => rollback_step m;; rollback_loop rest
  end.

(** The part of [rollback] that runs with the lock held (lines 31-66). *)
Definition rollback_locked (completed : list migration) : M unit :=
  batch ← getLastBatchNumber;
  if (batch =? 0)%Z then
    modify (emit (Println "No migrations have been run yet"));;
    ret tt
  else
    let rollback := getMigrationsForBatch completed batch in
    registered ← get migrations;
    let rollback := filterMigrations registered rollback true in
    modify (emit (Printf ("Rolling back batch %d with %d migration(s)..." ++ LF)
                         [ArgInt batch; ArgInt (Z.of_nat (length rollback))]));;
    rollback_loop rollback;;
    ret tt.

(** [rollback] *)
Definition rollback (directory : string) : M unit :=
  modify (fun w => set_migrations (sort_Slice name_gt (migrations w)) w);;
  completed ← getCompletedMigrations;
  acquireLock;;
  defer releaseLock (rollback_locked completed).

(** The nested loops of [rollbackNamed] (lines 103-110): every completed
    record is appended once for each listed name it equals. *)
Definition select_named (completed : list migration)
           (mNamesToRollback : list string) : list migration :=
  fold_left
    (fun rollback mRecord =>
       fold_left
         (fun rollback name =>
            if String.eqb (Name mRecord) name
            then (rollback ++ [mRecord])%list else rollback)
         mNamesToRollback rollback)
    completed [].

(** The part of [rollbackNamed] that runs with the lock held
    (lines 91-143). *)
Definition rollbackNamed_locked (completed : list migration)
           (mNamesToRollback : list string) : M unit :=
  batch ← getLastBatchNumber;
  if (batch =? 0)%Z then
    modify (emit (Println "No migrations have been run yet"));;
    ret tt
  else
    let rollback := select_named completed mNamesToRollback in
    if (0 <? length rollback)%nat then
      registered ← get migrations;
      let rollback := filterMigrations registered rollback true in
      modify (emit (Printf ("Rolling back " ++
                              fmt_Sprint_int (Z.of_nat (length rollback)) ++
                              " selected migration(s)..." ++ LF) []));;
      rollback_loop rollback;;
      ret tt
    else
      modify (emit (Print ("No such named migrations exist! " ++ LF)));;
      ret tt.

(** [rollbackNamed] *)
Definition rollbackNamed (directory : string) (_mNamesToRollback : string)
  : M unit :=
  modify (fun w => set_migrations (sort_Slice name_gt (migrations w)) w);;
  completed ← getCompletedMigrations;
  let _mNamesToRollback := strings_Replace _mNamesToRollback " "%char "" in
  let mNamesToRollback := strings_Split _mNamesToRollback ","%char in
  acquireLock;;
  defer releaseLock (rollbackNamed_locked completed mNamesToRollback).

End Runner.

Arguments Store : clear implicits.
Arguments action : clear implicits.
Arguments migration : clear implicits.
Arguments World : clear implicits.
Arguments M : clear implicits.

(** ** What a run did: projections of the trace *)

Definition ups (tr : list event) : list string :=
  omap (fun e => match e with EvUp n => Some n | _ => None end) tr.

Definition downs (tr : list event) : list string :=
  omap (fun e => match e with EvDown n => Some n | _ => None end) tr.

(** Ledger writes that the database accepted. *)
Definition inserts (tr : list event) : list (string * Z) :=
  omap (fun e => match e with
                 | EvDB (OpInsertMigration n b) None => Some (n, b)
                 | _ => None
                 end) tr.

Definition deletes (tr : list event) : list string :=
  omap (fun e => match e with
                 | EvDB (OpDeleteMigration n) None => Some n
                 | _ => None
                 end) tr.

(** The calls that touch the lock row, whether they failed or not. *)
Definition lock_calls (tr : list event) : list event :=
  List.filter (fun e => match e with
                        | EvDB OpSelectLockForUpdate _
                        | EvDB (OpUpdateLock _) _ => true
                        | _ => false
                        end) tr.

(** The batch-number queries. *)
Definition batch_queries (tr : list event) : list event :=
  List.filter (fun e => match e with
                        | EvDB OpSelectMaxBatch _ => true
                        | _ => false
                        end) tr.

Definition row_key (r : row) : string * Z := (row_name r, row_batch r).

(** An action that leaves the ledger table alone. *)
Definition preserves_ledger {Schema} (a : action Schema) : Prop :=
  forall s, migrations_table (fst (a s)) = migrations_table s.

Definition up_preserves_ledger {Schema} (m : migration Schema) : Prop :=
  forall a, Up m = Some a -> preserves_ledger a.

Definition down_preserves_ledger {Schema} (m : migration Schema) : Prop :=
  forall a, Down m = Some a -> preserves_ledger a.

(** Modelled from the spec: the invariants of a LedgerEntry, which the
    table's declaration (outside these sources) is to enforce: "a name
    appears in the ledger at most once at any time" ([name] is the table's
    unique key), and [batch] is a "positive integer". *)
Definition names_unique (t : list row) : Prop := NoDup (map row_name t).
Definition batches_positive (t : list row) : Prop :=
  Forall (fun r => 0 < row_batch r) t.

(** The characters of a string. *)
Definition occurs_in (c : ascii) (s : string) : Prop :=
  In c (list_ascii_of_string s).

(** The names a named rollback is given, as [rollbackNamed] reads them. *)
Definition listed_names (s : string) : list string :=
  strings_Split (strings_Replace s " "%char "") ","%char.

(** A list of names in descending order: no name is followed, anywhere
    later, by a greater one. *)
Definition descending (names : list string) : Prop :=
  StronglySorted (fun x y => String.leb y x = true) names.

(** A list of names in ascending order. *)
Definition ascending (names : list string) : Prop :=
  StronglySorted (fun x y => String.leb x y = true) names.

(** The part of a trace that matters to the ledger: the action calls and
    the ledger writes the database accepted. *)
Definition journal (tr : list event) : list event :=
  List.filter (fun e => match e with
                        | EvUp _ | EvDown _
                        | EvDB (OpInsertMigration _ _) None
                        | EvDB (OpDeleteMigration _) None => true
                        | _ => false
                        end) tr.

Definition table {Schema} (w : World Schema) : list row :=
  migrations_table (db w).

Section Vocabulary.
Context {Schema : Type}.
Implicit Types (w : World Schema).

(** Calls that leave the ledger and the journal alone. *)
Definition quiet w w' : Prop :=
  table w' = table w /\
  ups (trace w') = ups (trace w) /\ downs (trace w') = downs (trace w) /\
  inserts (trace w') = inserts (trace w) /\
  deletes (trace w') = deletes (trace w).

(** What rolling back a list of targets comes to: the first [k] of them
    were reversed and their ledger entries deleted; at most one more reverse
    action was called; a run that returns [nil] did them all. *)
Definition rolled_back (targets : list (migration Schema))
           w (r : result unit) w' : Prop :=
  ups (trace w') = ups (trace w) /\
  inserts (trace w') = inserts (trace w) /\
  exists k : nat,
    (k <= length targets)%nat /\
    table w' =
      filter (fun x => row_name x ∉ map Name (take k targets)) (table w) /\
    deletes (trace w') = (deletes (trace w) ++ map Name (take k targets))%list /\
    (downs (trace w') = (downs (trace w) ++ map Name (take k targets))%list \/
     downs (trace w') = (downs (trace w) ++ map Name (take (S k) targets))%list) /\
    (r = Ok tt -> k = length targets).

(** The targets of a batch rollback. *)
Definition batch_targets (registered : list (migration Schema))
           (t : list row) : list (migration Schema) :=
  let batch := sql_coalesce_max_batch t in
  if (batch =? 0)%Z then []
  else filterMigrations registered
         (getMigrationsForBatch (map scan t) batch) true.


End Vocabulary.



(** A computation every run of which takes a world to a related one. *)
Definition respects {Schema A} (R : World Schema -> World Schema -> Prop)
           (c : M Schema A) : Prop :=
  forall w r w', c w = (r, w') -> R w w'.



(** The lock row is the same in both worlds. *)
Definition same_lock {Schema} (w w' : World Schema) : Prop :=
  lock_is_locked (db w') = lock_is_locked (db w).

(** ** Scenarios *)

(** A driver that never fails, and a clock that shows the tick. *)
Definition no_faults : nat -> DBOp -> option error := fun _ _ => None.
Definition tick_clock : nat -> Z := Z.of_nat.

(** The actions of the repository's tests: one that does nothing and one
    that fails. *)
Definition noopMigration : action unit := fun s => (s, None).
Definition erringMigration : action unit := fun s => (s, Some "error").

(** A registered definition whose actions do nothing. *)
Definition definition (name : string) : migration unit :=
  mkMigration 0 name 0 0 (Some noopMigration) (Some noopMigration) false.

(** A registered definition whose actions fail, run outside a transaction. *)
Definition failing (name : string) : migration unit :=
  mkMigration 0 name 0 0 (Some erringMigration) (Some erringMigration) true.

(** A world with the given registry and ledger, unlocked, nothing done yet. *)
Definition world_of (registered : list (migration unit)) (t : list row)
  : World unit :=
  mkWorld registered (mkStore t (1 + Z.of_nat (length t)) false tt) 0 [] [].

(** The registry of the repository's tests over an empty ledger. *)
Definition scenario_empty : World unit :=
  world_of [definition "123"; definition "456"] [].

(** Scenario B: one entry of batch 4 and two of batch 5. *)
Definition scenario_B : World unit :=
  world_of [definition "123"; definition "456"; definition "789";
            definition "010"]
           [mkRow 1 "123" 4 0; mkRow 2 "456" 5 0; mkRow 3 "789" 5 0].

(** Scenario C: registry A, B, C, D; A completed in batch 1, B and C in
    batch 2. *)
Definition scenario_C : World unit :=
  world_of [definition "A"; definition "B"; definition "C"; definition "D"]
           [mkRow 1 "A" 1 0; mkRow 2 "B" 2 0; mkRow 3 "C" 2 0].

(** A: done in batch 1; then a failing B; C is never reached. *)
Definition after_A : World unit :=
  snd (migrate_loop no_faults tick_clock 1 [definition "A"] scenario_empty).
Definition after_failed_B : World unit :=
  snd (run_up no_faults (failing "B") after_A).

(** Scenario C rolled back as far as B; then a failing A. *)
Definition after_down_B : World unit :=
  snd (rollback_loop no_faults [definition "B"] scenario_C).
Definition after_failed_down_A : World unit :=
  snd (run_down no_faults (failing "A") after_down_B).

(** The lock row held by another run. *)
Definition scenario_locked : World unit :=
  set_db (set_lock_is_locked true (db scenario_empty)) scenario_empty.

(** Everything registered is already in the ledger. *)
Definition scenario_done : World unit :=
  world_of [definition "B"; definition "A"]
           [mkRow 1 "A" 1 0; mkRow 2 "B" 1 0].

(** Scenario A: two definitions, an empty ledger. *)
Definition scenario_A : World unit :=
  world_of [definition "B"; definition "A"] [].

(** A world as it is when the lock row is held. *)
Definition held (w : World unit) : World unit :=
  set_db (set_lock_is_locked true (db w)) w.

(** Scenario A at the point where [migrate] has sorted the registry and
    found A and B pending, and what its part under the lock makes of it. *)
Definition scenario_A_sorted : World unit :=
  world_of [definition "A"; definition "B"] [].
Definition after_scenario_A : World unit :=
  snd (migrate_locked no_faults tick_clock
                      [definition "A"; definition "B"] scenario_A_sorted).

(** Scenarios B and C with the registry as [rollback] and [rollbackNamed]
    sort it. *)
Definition scenario_B_sorted : World unit :=
  world_of [definition "789"; definition "456"; definition "123";
            definition "010"]
           [mkRow 1 "123" 4 0; mkRow 2 "456" 5 0; mkRow 3 "789" 5 0].
Definition scenario_C_sorted : World unit :=
  world_of [definition "D"; definition "C"; definition "B"; definition "A"]
           [mkRow 1 "A" 1 0; mkRow 2 "B" 2 0; mkRow 3 "C" 2 0].

(** A completed entry A whose definition is no longer registered. *)
Definition scenario_orphan : World unit :=
  world_of [definition "B"] [mkRow 1 "A" 1 0].

(** A driver on which the read of the ledger fails. *)
Definition select_fails : nat -> DBOp -> option error :=
  fun _ op =>
    match op with
    | OpSelectMigrations => Some "connection refused"
    | _ => None
    end.

(** The tests' action that fails after it has created a table, over a
    schema that records whether the table is there; one registered
    definition with that action, completed in batch 1. *)
Definition creating_then_erring : action bool := fun s =>
  (mkStore (migrations_table s) (migrations_id_seq s) (lock_is_locked s) true,
   Some "error").
Definition scenario_erring (disableTransaction : bool) : World bool :=
  mkWorld [mkMigration 0 "123" 0 0 (Some creating_then_erring)
                       (Some creating_then_erring) disableTransaction]
          (mkStore [mkRow 1 "123" 1 0] 2 false false) 0 [] [].

(** A driver on which the query for the last batch number fails. *)
Definition batch_query_fails : nat -> DBOp -> option error :=
  fun _ op =>
    match op with
    | OpSelectMaxBatch => Some "connection reset"
    | _ => None
    end.

(** A driver on which every write to the ledger fails. *)
Definition ledger_writes_fail : nat -> DBOp -> option error :=
  fun _ op =>
    match op with
    | OpInsertMigration _ _ | OpDeleteMigration _ => Some "read-only"
    | _ => None
    end.

(** ** Facts about the pure helpers *)

#[local] Arguments filterMigrations : simpl never.
#[local] Arguments getMigrationsForBatch : simpl never.
#[local] Arguments select_named : simpl never.
#[local] Arguments sort_Slice : simpl never.
#[local] Arguments listed_names : simpl never.
#[local] Arguments strings_Split : simpl never.
#[local] Arguments strings_Replace : simpl never.

Section PureFacts.
Context {Schema : Type}.
Implicit Types (m a : migration Schema) (all subset : list (migration Schema)).

Lemma subsetMap_lookup subset (mp : gmap string bool) (k : string) :
  fold_left (fun mp c => <[Name c := true]> mp) subset mp !! k =
  if decide (k ∈ map Name subset) then Some true else mp !! k.
Proof.
  revert mp. induction subset as [|c subset IH]; intros mp; simpl.
  - destruct (decide (k ∈ [])) as [H|]; [by apply elem_of_nil in H | done].
  - rewrite IH. destruct (decide (k ∈ map Name subset)) as [Hin|Hnin].
    + rewrite decide_True; [done | by apply elem_of_cons; right].
    + destruct (decide (k = Name c)) as [->|Hne].
      * rewrite lookup_insert_eq, decide_True; [done | by apply elem_of_cons; left].
      * rewrite lookup_insert_ne by done. rewrite decide_False; [done|].
        by intros [?|?]%elem_of_cons.
Qed.

Lemma append_loop_filter {A} (P : A -> bool) (l acc : list A) :
  fold_left (fun d x => if P x then (d ++ [x])%list else d) l acc =
  (acc ++ List.filter P l)%list.
Proof.
  revert acc. induction l as [|x l IH]; intros acc; simpl.
  - by rewrite app_nil_r.
  - rewrite IH. destruct (P x); [by rewrite <- app_assoc | done].
Qed.

(** [filterMigrations] keeps, in the order of [all], the definitions whose
    name is (or is not) the name of a member of [subset]. *)
Lemma filterMigrations_filter all subset (want : bool) :
  filterMigrations all subset want =
  List.filter (fun a => Bool.eqb (bool_decide (Name a ∈ map Name subset)) want) all.
Proof.
  unfold filterMigrations.
  rewrite (append_loop_filter
             (fun a => Bool.eqb (default false
                (fold_left (fun mp c => <[Name c := true]> mp) subset ∅ !! Name a)) want)).
  simpl. apply filter_ext. intros a. rewrite subsetMap_lookup, lookup_empty.
  by case_decide; [rewrite bool_decide_eq_true_2|rewrite bool_decide_eq_false_2].
Qed.

Lemma getMigrationsForBatch_filter all (batch : Z) :
  getMigrationsForBatch all batch =
  List.filter (fun a => Z.eqb (Batch a) batch) all.
Proof.
  unfold getMigrationsForBatch.
  by rewrite (append_loop_filter (fun a => Z.eqb (Batch a) batch)).
Qed.

Lemma select_named_inner m (names : list string) (acc : list (migration Schema)) :
  fold_left (fun rollback name =>
               if String.eqb (Name m) name then (rollback ++ [m])%list else rollback)
            names acc =
  (acc ++ map (fun _ => m) (List.filter (String.eqb (Name m)) names))%list.
Proof.
  revert acc. induction names as [|n names IH]; intros acc; simpl.
  - by rewrite app_nil_r.
  - rewrite IH. destruct (String.eqb (Name m) n); simpl;
      [by rewrite <- app_assoc | done].
Qed.

Lemma select_named_names_acc (completed : list (migration Schema))
      (names : list string) acc (n : string) :
  n ∈ map Name
        (fold_left
           (fun rollback mRecord =>
              fold_left
                (fun rollback name =>
                   if String.eqb (Name mRecord) name
                   then (rollback ++ [mRecord])%list else rollback)
                names rollback)
           completed acc) <->
  n ∈ map Name acc \/ (n ∈ map Name completed /\ n ∈ names).
Proof.
  revert acc. induction completed as [|c completed IH]; intros acc; simpl.
  - split; [by left | intros [?|[H _]]; [done | by apply elem_of_nil in H]].
  - rewrite IH, select_named_inner, map_app, elem_of_app, map_map.
    rewrite elem_of_cons.
    assert (n ∈ map (fun _ => Name c) (List.filter (String.eqb (Name c)) names)
            <-> n = Name c /\ n ∈ names) as ->.
    { rewrite list_elem_of_In, in_map_iff. split.
      - intros (x & <- & Hx). apply filter_In in Hx as [Hx Heq].
        apply String.eqb_eq in Heq. subst x. by rewrite list_elem_of_In.
      - intros [-> Hin]. exists (Name c). split; [done|].
        apply filter_In. rewrite <- list_elem_of_In. split; [done|].
        apply String.eqb_refl. }
    tauto.
Qed.

(** The records [rollbackNamed] selects carry exactly the names that are
    both completed and listed. *)
Lemma select_named_names (completed : list (migration Schema))
      (names : list string) (n : string) :
  n ∈ map Name (select_named completed names) <->
  n ∈ map Name completed /\ n ∈ names.
Proof.
  unfold select_named. rewrite select_named_names_acc. simpl.
  split; [intros [H|H]; [by apply elem_of_nil in H | done] | by right].
Qed.

End PureFacts.

(** ** The order of names *)

Lemma ascii_compare_lt_trans (a b c : ascii) :
  Ascii.compare a b = Lt -> Ascii.compare b c = Lt -> Ascii.compare a c = Lt.
Proof.
  unfold Ascii.compare. rewrite !N.compare_lt_iff. lia.
Qed.

Lemma string_compare_refl (s : string) : String.compare s s = Eq.
Proof.
  induction s as [|a s IH]; simpl; [done|].
  unfold Ascii.compare. by rewrite N.compare_refl.
Qed.

Lemma string_compare_lt_trans (a b c : string) :
  String.compare a b = Lt -> String.compare b c = Lt -> String.compare a c = Lt.
Proof.
  revert b c. induction a as [|x a IH]; intros [|y b] [|z c]; simpl; try done.
  destruct (Ascii.compare x y) eqn:Hxy; try done.
  - apply Ascii.compare_eq_iff in Hxy as ->.
    destruct (Ascii.compare y z); try done. apply IH.
  - destruct (Ascii.compare y z) eqn:Hyz; try done.
    + apply Ascii.compare_eq_iff in Hyz as <-. by rewrite Hxy.
    + by rewrite (ascii_compare_lt_trans x y z).
Qed.

Lemma string_ltb_asym (a b : string) :
  String.ltb a b = true -> String.ltb b a = false.
Proof.
  unfold String.ltb. rewrite (String.compare_antisym b a).
  by destruct (String.compare a b).
Qed.

(** If [a] is not before [b] and [b] is not before [c], then [a] is not
    before [c]. *)
Lemma string_ltb_negtrans (a b c : string) :
  String.ltb a b = false -> String.ltb b c = false -> String.ltb a c = false.
Proof.
  unfold String.ltb. intros Hab Hbc.
  destruct (String.compare a b) eqn:Eab; try done.
  - by apply String.compare_eq_iff in Eab as ->.
  - destruct (String.compare b c) eqn:Ebc; try done.
    + apply String.compare_eq_iff in Ebc as <-. by rewrite Eab.
    + rewrite String.compare_antisym in Eab, Ebc.
      rewrite String.compare_antisym.
      rewrite (string_compare_lt_trans c b a); [done| |];
        [by destruct (String.compare c b) | by destruct (String.compare b a)].
Qed.

Lemma string_leb_ltb (a b : string) :
  String.leb b a = true <-> String.ltb a b = false.
Proof.
  unfold String.leb, String.ltb. rewrite (String.compare_antisym a b).
  by destruct (String.compare b a).
Qed.

(** ** Facts about [sort.Slice] *)

Section SortFacts.
Context {Schema : Type}.
Variable less : migration Schema -> migration Schema -> bool.
Hypothesis less_asym : forall a b, less a b = true -> less b a = false.
Hypothesis less_negtrans :
  forall a b c, less a b = false -> less b c = false -> less a c = false.

Lemma sort_insert_perm x l : sort_insert less x l ≡ₚ x :: l.
Proof.
  induction l as [|y l IH]; simpl; [done|].
  destruct (less y x); [|done]. rewrite IH. apply Permutation_swap.
Qed.

Lemma sort_Slice_perm l : sort_Slice less l ≡ₚ l.
Proof.
  induction l as [|x l IH]; simpl; [done|].
  unfold sort_Slice in *. simpl. by rewrite sort_insert_perm, IH.
Qed.

Lemma sort_insert_sorted x l :
  StronglySorted (fun a b => less b a = false) l ->
  StronglySorted (fun a b => less b a = false) (sort_insert less x l).
Proof.
  induction 1 as [|y l Hs IH Hy]; simpl.
  - repeat constructor.
  - destruct (less y x) eqn:Hyx.
    + constructor; [done|].
      rewrite sort_insert_perm. constructor; [by apply less_asym | done].
    + constructor; [by constructor|].
      constructor; [done|].
      eapply Forall_impl; [exact Hy|]. intros z Hz. simpl in Hz.
      by apply (less_negtrans z y x).
Qed.

Lemma sort_Slice_sorted l :
  StronglySorted (fun a b => less b a = false) (sort_Slice less l).
Proof.
  induction l as [|x l IH]; [constructor|].
  apply sort_insert_sorted, IH.
Qed.

End SortFacts.

Section NameOrder.
Context {Schema : Type}.
Implicit Types (l : list (migration Schema)).

Lemma sort_by_name_elem_of (less : migration Schema -> migration Schema -> bool)
      l x :
  x ∈ sort_Slice less l <-> x ∈ l.
Proof. by rewrite sort_Slice_perm. Qed.

(** Sorting with [Name(i) > Name(j)] leaves the names in descending order,
    and so does every selection from the sorted slice. *)
Lemma sort_name_gt_descending l (P : migration Schema -> bool) :
  descending (map Name (List.filter P (sort_Slice name_gt l))).
Proof.
  unfold descending.
  assert (StronglySorted (fun a b : migration Schema => name_gt b a = false)
            (sort_Slice name_gt l)) as Hs.
  { apply sort_Slice_sorted; unfold name_gt; intros a b.
    - apply string_ltb_asym.
    - intros c H1 H2. by apply (string_ltb_negtrans _ (Name b)). }
  induction Hs as [|x t Hs IH Hx]; simpl; [constructor|].
  destruct (P x); simpl; [|done].
  constructor; [done|].
  apply Forall_forall. intros n Hn.
  apply list_elem_of_In, in_map_iff in Hn as (y & <- & Hy).
  apply filter_In in Hy as [Hy _].
  rewrite Forall_forall in Hx. apply list_elem_of_In, Hx in Hy.
  unfold name_gt in Hy. by apply string_leb_ltb.
Qed.

End NameOrder.

(** ** Facts about a run *)

Lemma journal_app tr1 tr2 :
  journal (tr1 ++ tr2) = (journal tr1 ++ journal tr2)%list.
Proof. apply List.filter_app. Qed.

Lemma batch_queries_app tr1 tr2 :
  batch_queries (tr1 ++ tr2) = (batch_queries tr1 ++ batch_queries tr2)%list.
Proof. apply List.filter_app. Qed.

Lemma lock_calls_app tr1 tr2 :
  lock_calls (tr1 ++ tr2) = (lock_calls tr1 ++ lock_calls tr2)%list.
Proof. apply List.filter_app. Qed.

Lemma ups_app tr1 tr2 : ups (tr1 ++ tr2) = (ups tr1 ++ ups tr2)%list.
Proof. apply omap_app. Qed.

Lemma downs_app tr1 tr2 : downs (tr1 ++ tr2) = (downs tr1 ++ downs tr2)%list.
Proof. apply omap_app. Qed.

Lemma inserts_app tr1 tr2 :
  inserts (tr1 ++ tr2) = (inserts tr1 ++ inserts tr2)%list.
Proof. apply omap_app. Qed.

Lemma deletes_app tr1 tr2 :
  deletes (tr1 ++ tr2) = (deletes tr1 ++ deletes tr2)%list.
Proof. apply omap_app. Qed.

Ltac journal_cases tr IH :=
  induction tr as [|[[]|?|?] tr IH]; simpl; try done;
  repeat case_match; simpl; by rewrite ?IH.

Lemma ups_journal tr : ups (journal tr) = ups tr.
Proof. journal_cases tr IH. Qed.

Lemma downs_journal tr : downs (journal tr) = downs tr.
Proof. journal_cases tr IH. Qed.

Lemma inserts_journal tr : inserts (journal tr) = inserts tr.
Proof. journal_cases tr IH. Qed.

Lemma deletes_journal tr : deletes (journal tr) = deletes tr.
Proof. journal_cases tr IH. Qed.

(** Unfolding the monad and the driver, and splitting on every outcome. *)
Ltac unfold_m :=
  repeat progress unfold mbind, M_bind, bind, bind_wrap, mret, M_ret, ret,
    fail, panic, defer, modify, modify_db, get, db_call, time_Now,
    RunInTransaction, tx_RunInTransaction, call,
    getCompletedMigrations, getLastBatchNumber, acquireLock, releaseLock,
    db_select_migrations, db_select_lock_for_update, db_update_lock,
    db_select_max_batch, db_insert_migration, db_delete_migration in *.

Ltac unfold_top :=
  repeat progress unfold mbind, M_bind, bind, mret, M_ret, ret, defer,
    modify, get, db_call, getCompletedMigrations, getLastBatchNumber,
    db_select_migrations, db_select_max_batch in *.

Ltac unfold_prelude :=
  repeat progress unfold mbind, M_bind, bind, mret, M_ret, ret,
    modify, get, db_call, getCompletedMigrations, db_select_migrations in *.

Ltac crunch :=
  repeat first
    [ progress simplify_eq/=
    | match goal with
      | H : context [match ?x with _ => _ end] |- _ =>
          let E := fresh "E" in destruct x eqn:E
      | H : context [let (_, _) := ?x in _] |- _ =>
          let E := fresh "E" in destruct x eqn:E
      end ].

Ltac destruct_units :=
  repeat match goal with a : unit |- _ => destruct a end.

Ltac trace_simpl :=
  unfold table in *; simpl;
  rewrite ?journal_app, ?batch_queries_app, ?lock_calls_app; simpl;
  rewrite ?app_nil_r.

Section RunnerFacts.
Context {Schema : Type}.
Variable faults : nat -> DBOp -> option error.
Variable clock : nat -> Z.
Implicit Types (w : World Schema) (m : migration Schema).
Implicit Types (ms : list (migration Schema)).

(** *** One migration, forward *)

Lemma run_up_spec m w r w' :
  up_preserves_ledger m ->
  run_up faults m w = (r, w') ->
  migrations w' = migrations w /\ stdout w' = stdout w /\
  table w' = table w /\
  batch_queries (trace w') = batch_queries (trace w) /\
  match r with
  | Ok _ => journal (trace w') = (journal (trace w) ++ [EvUp (Name m)])%list
  | Err _ => journal (trace w') = journal (trace w) \/
             journal (trace w') = (journal (trace w) ++ [EvUp (Name m)])%list
  | Panic => journal (trace w') = journal (trace w)
  end.
Proof.
  intros Hfr. unfold run_up. unfold_m. intros H.
  crunch; trace_simpl; repeat split; auto;
    match goal with
    | Hu : Up m = Some ?a, Ha : ?a (db w) = (?s, _) |- _ =>
        by rewrite <- (Hfr a Hu (db w)), Ha
    end.
Qed.

Lemma migrate_step_spec batch m w r w' :
  up_preserves_ledger m ->
  migrate_step faults clock batch m w = (r, w') ->
  migrations w' = migrations w /\
  batch_queries (trace w') = batch_queries (trace w) /\
  match r with
  | Ok _ =>
      (exists x, table w' = (table w ++ [x])%list /\
                 row_key x = (Name m, batch)) /\
      journal (trace w') =
        (journal (trace w) ++
           [EvUp (Name m); EvDB (OpInsertMigration (Name m) batch) None])%list
  | Err e =>
      table w' = table w /\
      (journal (trace w') = journal (trace w) \/
       journal (trace w') = (journal (trace w) ++ [EvUp (Name m)])%list) /\
      exists e0, e = fmt_Errorf_name (Name m) e0
  | Panic =>
      table w' = table w /\ journal (trace w') = journal (trace w)
  end.
Proof.
  intros Hfr. unfold migrate_step, bind_wrap. intros H.
  destruct (run_up faults (with_Batch batch m) w) as [ru w1] eqn:Hru.
  apply (run_up_spec (with_Batch batch m)) in Hru; [|exact Hfr].
  destruct Hru as (Hm & Hs & Ht & Hb & Hj). simpl in Hj.
  destruct ru as [[]|e|].
  - unfold_m. crunch; trace_simpl; rewrite ?Hm, ?Hb, ?Hj, ?Ht.
    + repeat split; eauto. by rewrite <- app_assoc.
    + repeat split; eauto.
  - simplify_eq. repeat split; eauto.
  - simplify_eq. repeat split; eauto.
Qed.

Lemma journal_ups tr tr' j :
  journal tr' = (journal tr ++ j)%list -> ups tr' = (ups tr ++ ups j)%list.
Proof. intros H. by rewrite <- (ups_journal tr'), H, ups_app, ups_journal. Qed.

Lemma journal_downs tr tr' j :
  journal tr' = (journal tr ++ j)%list -> downs tr' = (downs tr ++ downs j)%list.
Proof. intros H. by rewrite <- (downs_journal tr'), H, downs_app, downs_journal. Qed.

Lemma journal_inserts tr tr' j :
  journal tr' = (journal tr ++ j)%list ->
  inserts tr' = (inserts tr ++ inserts j)%list.
Proof.
  intros H. by rewrite <- (inserts_journal tr'), H, inserts_app, inserts_journal.
Qed.

Lemma journal_deletes tr tr' j :
  journal tr' = (journal tr ++ j)%list ->
  deletes tr' = (deletes tr ++ deletes j)%list.
Proof.
  intros H. by rewrite <- (deletes_journal tr'), H, deletes_app, deletes_journal.
Qed.

Lemma journal_same tr tr' :
  journal tr' = journal tr ->
  ups tr' = ups tr /\ downs tr' = downs tr /\
  inserts tr' = inserts tr /\ deletes tr' = deletes tr.
Proof.
  intros H.
  rewrite <- (ups_journal tr'), <- (downs_journal tr'),
    <- (inserts_journal tr'), <- (deletes_journal tr'), H.
  by rewrite ups_journal, downs_journal, inserts_journal, deletes_journal.
Qed.

(** *** The loop of [migrate] *)

Lemma migrate_loop_app batch ms1 ms2 w :
  migrate_loop faults clock batch (ms1 ++ ms2) w =
  match migrate_loop faults clock batch ms1 w with
  | (Ok _, w1) => migrate_loop faults clock batch ms2 w1
  | other => other
  end.
Proof.
  revert w. induction ms1 as [|m ms1 IH]; intros w; simpl; [done|].
  unfold mbind, M_bind, bind.
  destruct (migrate_step faults clock batch m w) as [[[]|e|] w1]; [|done..].
  rewrite IH. by destruct (migrate_loop faults clock batch ms1 w1) as [[[]|?|] ?].
Qed.

Lemma migrate_loop_spec batch ms : forall w r w',
  Forall up_preserves_ledger ms ->
  migrate_loop faults clock batch ms w = (r, w') ->
  migrations w' = migrations w /\
  batch_queries (trace w') = batch_queries (trace w) /\
  downs (trace w') = downs (trace w) /\
  deletes (trace w') = deletes (trace w) /\
  exists (k : nat) (new : list row),
    (k <= length ms)%nat /\
    table w' = (table w ++ new)%list /\
    map row_key new = map (fun x => (Name x, batch)) (take k ms) /\
    inserts (trace w') =
      (inserts (trace w) ++ map (fun x => (Name x, batch)) (take k ms))%list /\
    (ups (trace w') = (ups (trace w) ++ map Name (take k ms))%list \/
     ups (trace w') = (ups (trace w) ++ map Name (take (S k) ms))%list) /\
    (r = Ok tt ->
     k = length ms /\ ups (trace w') = (ups (trace w) ++ map Name ms)%list).
Proof.
  induction ms as [|m ms IH]; intros w r w' Hfr H; simpl in H.
  - unfold ret in H. simplify_eq. repeat split; try done.
    exists 0%nat, []. simpl. rewrite !app_nil_r. by repeat split; auto.
  - apply Forall_cons in Hfr as [Hm Hms].
    unfold mbind, M_bind, bind in H.
    destruct (migrate_step faults clock batch m w) as [rs w1] eqn:Hstep.
    apply migrate_step_spec in Hstep as (Hmig & Hbq & Hcase); [|done].
    destruct rs as [[]|e|].
    + destruct Hcase as [(x & Htab & Hkey) Hj].
      apply IH in H
        as (Hmig' & Hbq' & Hdn' & Hdl' & k & new & Hk & Htab' & Hkeys & Hins & Hups & Hok);
        [|done].
      apply journal_ups in Hj as Hju. apply journal_inserts in Hj as Hji.
      apply journal_downs in Hj as Hjd. apply journal_deletes in Hj as Hjx.
      simpl in Hju, Hji, Hjd, Hjx. rewrite app_nil_r in Hjd, Hjx.
      split; [congruence|]. split; [congruence|].
      split; [congruence|]. split; [congruence|].
      exists (S k), (x :: new). simpl. repeat split.
      * lia.
      * rewrite Htab', Htab. by rewrite <- app_assoc.
      * by rewrite Hkey, Hkeys.
      * rewrite Hins, Hji. by rewrite <- app_assoc.
      * destruct Hups as [-> | ->]; [left | right]; rewrite Hju;
          by rewrite <- app_assoc.
      * by destruct (Hok H) as [-> _].
      * destruct (Hok H) as [_ ->]. rewrite Hju. by rewrite <- app_assoc.
    + simplify_eq. destruct Hcase as (Htab & Hj & _).
      assert (downs (trace w') = downs (trace w) /\
              deletes (trace w') = deletes (trace w) /\
              inserts (trace w') = inserts (trace w)) as (Hdn & Hdl & Hin).
      { destruct Hj as [Hj|Hj]; [by apply journal_same in Hj as (_ & ? & ? & ?)|].
        apply journal_downs in Hj as Hjd. apply journal_deletes in Hj as Hjx.
        apply journal_inserts in Hj as Hji.
        simpl in Hjd, Hjx, Hji. by rewrite app_nil_r in Hjd, Hjx, Hji. }
      repeat split; try done. exists 0%nat, []. simpl.
      rewrite !app_nil_r. repeat split; try done; try lia.
      destruct Hj as [Hj|Hj]; [left; by apply journal_same in Hj as (-> & _)|].
      right. apply journal_ups in Hj. by rewrite Hj.
    + simplify_eq. destruct Hcase as (Htab & Hj).
      apply journal_same in Hj as (Hu & Hdn & Hi & Hdl).
      repeat split; try done. exists 0%nat, []. simpl.
      rewrite !app_nil_r. repeat split; try done; try lia. by left.
Qed.

(** *** One migration, backward *)

Lemma run_down_spec m w r w' :
  down_preserves_ledger m ->
  run_down faults m w = (r, w') ->
  migrations w' = migrations w /\ stdout w' = stdout w /\
  table w' = table w /\
  batch_queries (trace w') = batch_queries (trace w) /\
  match r with
  | Ok _ => journal (trace w') = (journal (trace w) ++ [EvDown (Name m)])%list
  | Err _ => journal (trace w') = journal (trace w) \/
             journal (trace w') = (journal (trace w) ++ [EvDown (Name m)])%list
  | Panic => journal (trace w') = journal (trace w)
  end.
Proof.
  intros Hfr. unfold run_down. unfold_m. intros H.
  crunch; trace_simpl; repeat split; auto;
    match goal with
    | Hd : Down m = Some ?a, Ha : ?a (db w) = (?s, _) |- _ =>
        by rewrite <- (Hfr a Hd (db w)), Ha
    end.
Qed.

Lemma rollback_step_spec m w r w' :
  down_preserves_ledger m ->
  rollback_step faults m w = (r, w') ->
  migrations w' = migrations w /\
  batch_queries (trace w') = batch_queries (trace w) /\
  match r with
  | Ok _ =>
      table w' = filter (fun x => row_name x ≠ Name m) (table w) /\
      journal (trace w') =
        (journal (trace w) ++
           [EvDown (Name m); EvDB (OpDeleteMigration (Name m)) None])%list
  | Err e =>
      table w' = table w /\
      (journal (trace w') = journal (trace w) \/
       journal (trace w') = (journal (trace w) ++ [EvDown (Name m)])%list) /\
      exists e0, e = fmt_Errorf_name (Name m) e0
  | Panic =>
      table w' = table w /\ journal (trace w') = journal (trace w)
  end.
Proof.
  intros Hfr. unfold rollback_step, bind_wrap. intros H.
  destruct (run_down faults m w) as [rd w1] eqn:Hrd.
  apply run_down_spec in Hrd; [|exact Hfr].
  destruct Hrd as (Hm & Hs & Ht & Hb & Hj).
  destruct rd as [[]|e|].
  - unfold_m. crunch; trace_simpl; rewrite ?Hm, ?Hb, ?Hj, ?Ht.
    + repeat split; eauto. by rewrite <- app_assoc.
    + repeat split; eauto.
  - simplify_eq. repeat split; eauto.
  - simplify_eq. repeat split; eauto.
Qed.

(** *** The loop of [rollback] and [rollbackNamed] *)

Lemma rollback_loop_app ms1 ms2 w :
  rollback_loop faults (ms1 ++ ms2) w =
  match rollback_loop faults ms1 w with
  | (Ok _, w1) => rollback_loop faults ms2 w1
  | other => other
  end.
Proof.
  revert w. induction ms1 as [|m ms1 IH]; intros w; simpl; [done|].
  unfold mbind, M_bind, bind.
  destruct (rollback_step faults m w) as [[[]|e|] w1]; [|done..].
  rewrite IH. by destruct (rollback_loop faults ms1 w1) as [[[]|?|] ?].
Qed.

Lemma delete_then_filter (n : string) (names : list string) (t : list row) :
  filter (fun x => row_name x ∉ names) (filter (fun x => row_name x ≠ n) t) =
  filter (fun x => row_name x ∉ n :: names) t.
Proof.
  rewrite list_filter_filter. apply list_filter_iff. intros x.
  rewrite not_elem_of_cons. tauto.
Qed.

Lemma filter_not_in_nil (t : list row) :
  filter (fun x => row_name x ∉ @nil string) t = t.
Proof.
  induction t as [|x t IH]; [done|].
  rewrite filter_cons_True; [by rewrite IH | apply not_elem_of_nil].
Qed.

Lemma rollback_loop_spec ms : forall w r w',
  Forall down_preserves_ledger ms ->
  rollback_loop faults ms w = (r, w') ->
  migrations w' = migrations w /\
  batch_queries (trace w') = batch_queries (trace w) /\
  ups (trace w') = ups (trace w) /\
  inserts (trace w') = inserts (trace w) /\
  exists k : nat,
    (k <= length ms)%nat /\
    table w' = filter (fun x => row_name x ∉ map Name (take k ms)) (table w) /\
    deletes (trace w') = (deletes (trace w) ++ map Name (take k ms))%list /\
    (downs (trace w') = (downs (trace w) ++ map Name (take k ms))%list \/
     downs (trace w') = (downs (trace w) ++ map Name (take (S k) ms))%list) /\
    (r = Ok tt ->
     k = length ms /\ downs (trace w') = (downs (trace w) ++ map Name ms)%list).
Proof.
  induction ms as [|m ms IH]; intros w r w' Hfr H; simpl in H.
  - unfold ret in H. simplify_eq. repeat split; try done.
    exists 0%nat. simpl. rewrite !app_nil_r, filter_not_in_nil.
    by repeat split; auto.
  - apply Forall_cons in Hfr as [Hm Hms].
    unfold mbind, M_bind, bind in H.
    destruct (rollback_step faults m w) as [rs w1] eqn:Hstep.
    apply rollback_step_spec in Hstep as (Hmig & Hbq & Hcase); [|done].
    destruct rs as [[]|e|].
    + destruct Hcase as [Htab Hj].
      apply IH in H as (Hmig' & Hbq' & Hu' & Hi' & k & Hk & Htab' & Hdel & Hdowns & Hok);
        [|done].
      apply journal_ups in Hj as Hju. apply journal_inserts in Hj as Hji.
      apply journal_downs in Hj as Hjd. apply journal_deletes in Hj as Hjx.
      simpl in Hju, Hji, Hjd, Hjx. rewrite app_nil_r in Hju, Hji.
      split; [congruence|]. split; [congruence|].
      split; [congruence|]. split; [congruence|].
      exists (S k). simpl. repeat split.
      * lia.
      * by rewrite Htab', Htab, delete_then_filter.
      * rewrite Hdel, Hjx. by rewrite <- app_assoc.
      * destruct Hdowns as [-> | ->]; [left | right]; rewrite Hjd;
          by rewrite <- app_assoc.
      * by destruct (Hok H) as [-> _].
      * destruct (Hok H) as [_ ->]. rewrite Hjd. by rewrite <- app_assoc.
    + simplify_eq. destruct Hcase as (Htab & Hj & _).
      assert (ups (trace w') = ups (trace w) /\
              inserts (trace w') = inserts (trace w) /\
              deletes (trace w') = deletes (trace w)) as (Hu & Hi & Hx).
      { destruct Hj as [Hj|Hj]; [by apply journal_same in Hj as (? & _ & ? & ?)|].
        apply journal_ups in Hj as Hju. apply journal_inserts in Hj as Hji.
        apply journal_deletes in Hj as Hjx. simpl in *.
        by rewrite Hju, Hji, Hjx, !app_nil_r. }
      repeat split; try done. exists 0%nat. simpl.
      rewrite !app_nil_r, filter_not_in_nil. repeat split; try done; try lia.
      destruct Hj as [Hj|Hj]; [left; by apply journal_same in Hj as (_ & -> & _)|].
      right. apply journal_downs in Hj. by rewrite Hj.
    + simplify_eq. destruct Hcase as (Htab & Hj).
      apply journal_same in Hj as (Hu & Hd & Hi & Hx).
      repeat split; try done. exists 0%nat. simpl.
      rewrite !app_nil_r, filter_not_in_nil.
      repeat split; try done; try lia. by left.
Qed.

(** *** Nothing pending *)

Lemma scan_names (t : list row) :
  map Name (map (@scan Schema) t) = map row_name t.
Proof. rewrite map_map. by apply map_ext. Qed.

Lemma pending_nil ms (t : list row) :
  Forall (fun m => Name m ∈ map row_name t) ms ->
  filterMigrations ms (map scan t) false = [].
Proof.
  intros Hall. rewrite filterMigrations_filter, scan_names.
  induction Hall as [|m ms Hm _ IH]; simpl; [done|].
  by rewrite bool_decide_eq_true_2.
Qed.

(** When every registered name is in the ledger and the ledger can be
    read, [migrate] reads it, prints one line and returns. *)
Lemma migrate_up_to_date directory w :
  faults (tick w) OpSelectMigrations = None ->
  Forall (fun m => Name m ∈ map row_name (table w)) (migrations w) ->
  migrate faults clock directory w =
  (Ok tt,
   mkWorld (sort_Slice name_lt (migrations w)) (db w) (S (tick w))
           (trace w ++ [EvDB OpSelectMigrations None])
           (stdout w ++ [Println "Migrations already up to date"])).
Proof.
  intros Hsel Hall. unfold migrate. unfold_m. simpl. rewrite Hsel. simpl.
  rewrite pending_nil; [done|].
  apply Forall_forall. intros m Hm. apply sort_by_name_elem_of in Hm.
  rewrite Forall_forall in Hall. by apply Hall.
Qed.

(** *** The part of [migrate] under the lock *)

Lemma Forall_filterMigrations (P : migration Schema -> Prop) all subset want :
  Forall P all -> Forall P (filterMigrations all subset want).
Proof.
  intros H. rewrite filterMigrations_filter.
  apply Forall_forall. intros x Hx%list_elem_of_In%filter_In.
  rewrite Forall_forall in H. apply H, list_elem_of_In, Hx.
Qed.

Lemma Forall_sort_Slice (P : migration Schema -> Prop) less ms :
  Forall P ms -> Forall P (sort_Slice less ms).
Proof. by rewrite sort_Slice_perm. Qed.

Lemma row_keys_batch (batch : Z) (new : list row) ms :
  map row_key new = map (fun x : migration Schema => (Name x, batch)) ms ->
  Forall (fun x => row_batch x = batch) new /\
  map row_name new = map Name ms.
Proof.
  revert ms. induction new as [|x new IH]; intros [|m ms] H; simpl in *;
    try done.
  injection H as Hname Hbatch Hnew. destruct (IH _ Hnew) as [Hb Hn].
  split; [by constructor | by rewrite Hname, Hn].
Qed.

Lemma migrate_locked_spec uncompleted w r w' :
  Forall up_preserves_ledger uncompleted ->
  migrate_locked faults clock uncompleted w = (r, w') ->
  let batch := add32 (sql_coalesce_max_batch (table w)) 1 in
  migrations w' = migrations w /\
  exists (k : nat) (new : list row) (q : option error),
    (k <= length uncompleted)%nat /\
    table w' = (table w ++ new)%list /\
    map row_key new = map (fun x => (Name x, batch)) (take k uncompleted) /\
    inserts (trace w') = (inserts (trace w) ++ map row_key new)%list /\
    batch_queries (trace w') =
      (batch_queries (trace w) ++ [EvDB OpSelectMaxBatch q])%list /\
    (ups (trace w') = (ups (trace w) ++ map Name (take k uncompleted))%list \/
     ups (trace w') = (ups (trace w) ++ map Name (take (S k) uncompleted))%list) /\
    (q ≠ None -> k = 0%nat /\ ups (trace w') = ups (trace w)) /\
    (r = Ok tt -> k = length uncompleted) /\
    (r = Ok tt -> q = None).
Proof.
  intros Hfr. unfold migrate_locked. unfold_top. intros H. crunch.
  all: try match goal with
       | H : migrate_loop _ _ _ _ _ = _ |- _ =>
           apply migrate_loop_spec in H
             as (Hmig & Hbq & _ & _ & k & new & Hk & Htab & Hkeys & Hins & Hups & Hok);
           [|done]
       end.
  all: trace_simpl; simpl in *.
  1-3: split; [done|]; exists k, new, None.
  1-3: rewrite inserts_app, ups_app in *; simpl in *; rewrite app_nil_r in *.
  1-3: rewrite batch_queries_app in Hbq; simpl in Hbq.
  1-3: rewrite Hkeys; repeat split; try done.
  { intros _. destruct a0. by apply Hok. }
  split; [done|]. exists 0%nat, [], (Some e). simpl.
  rewrite inserts_app, ups_app, !app_nil_r. simpl. rewrite ?app_nil_r.
  repeat split; try done; try lia. by left.
Qed.

(** *** Rolling back a list of targets *)

Lemma rolled_back_none targets w r w' :
  quiet w w' -> (r = Ok tt -> targets = []) -> rolled_back targets w r w'.
Proof.
  intros (Ht & Hu & Hd & Hi & Hx) Hr. split; [done|]. split; [done|].
  exists 0%nat. simpl. rewrite !app_nil_r, filter_not_in_nil.
  repeat split; try done; try lia; [by left|].
  intros ->%Hr. done.
Qed.

Lemma rolled_back_quiet_l targets w w1 r w' :
  quiet w w1 -> rolled_back targets w1 r w' -> rolled_back targets w r w'.
Proof.
  intros (Ht & Hu & Hd & Hi & Hx) (Hu' & Hi' & k & Hk & Ht' & Hx' & Hd' & Hr).
  split; [congruence|]. split; [congruence|]. exists k.
  rewrite <- Ht, <- Hx, <- Hd. by repeat split.
Qed.

Lemma rollback_loop_rolled_back targets w r w' :
  Forall down_preserves_ledger targets ->
  rollback_loop faults targets w = (r, w') ->
  migrations w' = migrations w /\ rolled_back targets w r w'.
Proof.
  intros Hfr H. apply rollback_loop_spec in H
    as (Hm & _ & Hu & Hi & k & Hk & Ht & Hx & Hd & Hr); [|done].
  split; [done|]. split; [done|]. split; [done|]. exists k.
  repeat split; try done. by intros [? _]%Hr.
Qed.

Lemma rollback_locked_spec w r w' :
  Forall down_preserves_ledger (migrations w) ->
  rollback_locked faults (map scan (table w)) w = (r, w') ->
  migrations w' = migrations w /\
  rolled_back (batch_targets (migrations w) (table w)) w r w'.
Proof.
  intros Hfr. unfold rollback_locked, batch_targets. unfold_top. intros H.
  crunch.
  all: try match goal with
       | H : rollback_loop _ _ _ = _ |- _ =>
           apply rollback_loop_rolled_back in H as [Hm Hrb];
           [|by apply Forall_filterMigrations]
       end.
  all: destruct_units; unfold table in *; simpl in *.
  all: try match goal with
       | H : (_ =? 0)%Z = _ |- _ => rewrite H in *
       end.
  all: split; [done|].
  all: try (eapply rolled_back_quiet_l; [|eassumption]).
  all: try apply rolled_back_none; try done.
  all: repeat split; simpl;
    rewrite ?ups_app, ?downs_app, ?inserts_app, ?deletes_app; simpl;
    rewrite ?app_nil_r; try done.
Qed.


(** *** The lock is never taken *)

(** [acquireLock] does not return [nil]: on a held lock it stops at the
    check, on a free one at the update of the row, which is not sent.
    Either way the database is as it was. *)
Lemma acquireLock_fails w r w' :
  acquireLock faults w = (r, w') ->
  r <> Ok tt /\ r <> Panic /\ db w' = db w /\
  migrations w' = migrations w /\ stdout w' = stdout w /\
  journal (trace w') = journal (trace w) /\
  batch_queries (trace w') = batch_queries (trace w).
Proof.
  unfold_m. unfold db_update_lock, fail. intros H.
  crunch; trace_simpl; by repeat split.
Qed.


Ltac stop_at_lock :=
  repeat match goal with
  | H : acquireLock _ _ = _ |- _ =>
      apply acquireLock_fails in H as (? & ? & ? & ? & ? & ? & ?)
  end.

(** A run of [migrate]: it sorts the registry and reads the ledger; with
    nothing pending it prints its line and returns [nil]; otherwise it
    goes for the lock and comes back with an error.  The database is as
    it was. *)
Lemma migrate_entry directory w r w' :
  migrate faults clock directory w = (r, w') ->
  let uncompleted :=
    filterMigrations (sort_Slice name_lt (migrations w))
                     (map scan (table w)) false in
  migrations w' = sort_Slice name_lt (migrations w) /\
  r <> Panic /\ db w' = db w /\
  journal (trace w') = journal (trace w) /\
  batch_queries (trace w') = batch_queries (trace w) /\
  (r = Ok tt ->
   uncompleted = [] /\
   stdout w' = (stdout w ++ [Println "Migrations already up to date"])%list) /\
  (r <> Ok tt -> stdout w' = stdout w).
Proof.
  unfold migrate. unfold_prelude. unfold defer. intros H. crunch.
  all: stop_at_lock; destruct_units; try done.
  all: trace_simpl; simpl in *.
  all: rewrite ?journal_app, ?batch_queries_app in *; simpl in *.
  all: rewrite ?app_nil_r in *.
  all: repeat split; try done; try congruence.
  match goal with
  | Hz : (length ?l =? 0)%nat = true |- ?l = [] =>
      apply Nat.eqb_eq in Hz; by destruct l
  end.
Qed.

(** A run of [rollback] or of [rollbackNamed]: it sorts the registry,
    reads the ledger, goes for the lock and comes back with an error.
    Nothing is printed and the database is as it was. *)
Lemma rollback_entry directory w r w' :
  rollback faults directory w = (r, w') ->
  migrations w' = sort_Slice name_gt (migrations w) /\
  r <> Ok tt /\ r <> Panic /\ db w' = db w /\ stdout w' = stdout w /\
  journal (trace w') = journal (trace w) /\
  batch_queries (trace w') = batch_queries (trace w).
Proof.
  unfold rollback. unfold_prelude. unfold defer. intros H. crunch.
  all: stop_at_lock; destruct_units; try done.
  all: trace_simpl; simpl in *.
  all: rewrite ?journal_app, ?batch_queries_app in *; simpl in *.
  all: rewrite ?app_nil_r in *.
  all: repeat split; try done; try congruence.
Qed.

Lemma rollbackNamed_entry directory (names : string) w r w' :
  rollbackNamed faults directory names w = (r, w') ->
  migrations w' = sort_Slice name_gt (migrations w) /\
  r <> Ok tt /\ r <> Panic /\ db w' = db w /\ stdout w' = stdout w /\
  journal (trace w') = journal (trace w) /\
  batch_queries (trace w') = batch_queries (trace w).
Proof.
  unfold rollbackNamed. unfold_prelude. unfold defer. intros H. crunch.
  all: stop_at_lock; destruct_units; try done.
  all: trace_simpl; simpl in *.
  all: rewrite ?journal_app, ?batch_queries_app in *; simpl in *.
  all: rewrite ?app_nil_r in *.
  all: repeat split; try done; try congruence.
Qed.

End RunnerFacts.

(** ** Relations that a run respects *)

Section Respects.
Context {Schema : Type}.
Variable faults : nat -> DBOp -> option error.
Variable clock : nat -> Z.
Variable R : World Schema -> World Schema -> Prop.
Context `{!Reflexive R, !Transitive R}.
Implicit Types (w : World Schema) (m : migration Schema).


Lemma respects_fail {A} (e : error) : respects R (@fail Schema A e).
Proof. intros w r w' [= <- <-]. reflexivity. Qed.

Lemma respects_panic {A} : respects R (@panic Schema A).
Proof. intros w r w' [= <- <-]. reflexivity. Qed.



Lemma respects_defer {A} (cleanup : M Schema unit) (body : M Schema A) :
  respects R body -> respects R cleanup -> respects R (defer cleanup body).
Proof.
  intros Hb Hc w r w'. unfold defer.
  destruct (body w) as [r1 w1] eqn:E. apply Hb in E.
  destruct (cleanup w1) as [[[]|e|] w2] eqn:E2; apply Hc in E2;
    intros [= <- <-]; by transitivity w1.
Qed.



(** What the relation has to admit: the log of a driver call of an
    admitted kind, the call of an admitted action, a line of output, a
    change of the ledger's rows, and the roll-back of a transaction. *)
Variable okop : DBOp -> Prop.
Variable okcall : event -> action Schema -> Prop.
Hypothesis R_op :
  forall op f w, okop op -> R w (next_tick (log_event (EvDB op f) w)).
Hypothesis R_call :
  forall ev a w, okcall ev a -> R w (log_event ev (set_db (fst (a (db w))) w)).
Hypothesis R_emit : forall o w, R w (emit o w).
Hypothesis R_rows :
  forall w t seq,
    R w (set_db (mkStore t seq (lock_is_locked (db w)) (schema (db w))) w).
Hypothesis R_restore : forall w w1, R w w1 -> R w (set_db (db w) w1).
Hypothesis ok_Begin : okop OpBegin.
Hypothesis ok_Commit : okop OpCommit.
Hypothesis ok_Rollback : okop OpRollback.


















End Respects.

(** *** The lock row under the lock *)

Section LockRow.
Context {Schema : Type}.
Implicit Types (w : World Schema) (m : migration Schema).

#[local] Instance same_lock_refl : Reflexive (@same_lock Schema).
Proof. by intros w. Qed.

#[local] Instance same_lock_trans : Transitive (@same_lock Schema).
Proof. unfold same_lock. intros w1 w2 w3 H1 H2. congruence. Qed.








End LockRow.

(** ** The claims *)

Section Claims.
Context {Schema : Type}.
Implicit Types (w : World Schema) (m : migration Schema).
Implicit Types (ms all completed : list (migration Schema)).

Lemma List_filter_stdpp {A} (f : A -> bool) (P : A -> Prop)
      `{forall x, Decision (P x)} (l : list A) :
  (forall x, f x = true <-> P x) -> List.filter f l = filter P l.
Proof.
  intros Hf. induction l as [|x l IH]; simpl; [done|].
  destruct (f x) eqn:Hx.
  - rewrite filter_cons_True; [by rewrite IH | by apply Hf].
  - rewrite filter_cons_False; [done|]. intros HP%Hf. congruence.
Qed.

(** C7. [pending(all, completed)], which the code computes as
    [filterMigrations(all, completed, false)], is exactly the definitions of
    [all] whose name is not the name of an entry of [completed], in the
    order they have in [all]. *)
Theorem C7_pending_is_ordered_difference all completed :
  filterMigrations all completed false =
  filter (fun a => Name a ∉ map Name completed) all.
Proof.
  rewrite filterMigrations_filter. apply List_filter_stdpp. intros a.
  destruct (decide (Name a ∈ map Name completed)) as [Hin|Hnin].
  - rewrite bool_decide_eq_true_2 by done. simpl. split; [done|tauto].
  - by rewrite bool_decide_eq_false_2.
Qed.

(** C2.  [acquireLock] never returns [nil] and never changes the database.
    On a held lock that is what the claim says: when the row could be read
    the error is [ErrAlreadyLocked] and the transaction is rolled back.  On
    a free lock it is not: the update that should set [is_locked] is not
    sent, its error is returned and the transaction is rolled back, so the
    lock stays free. *)
Theorem C2_acquireLock_checks_but_never_sets
        (faults : nat -> DBOp -> option error) w :
  let r := fst (acquireLock faults w) in
  let w' := snd (acquireLock faults w) in
  r ≠ Ok tt /\ db w' = db w /\
  (faults (tick w) OpBegin = None ->
   faults (S (tick w)) OpSelectLockForUpdate = None ->
   r = Err (if lock_is_locked (db w) then ErrAlreadyLocked
            else errUpdateWithoutWhere) /\
   exists f,
     trace w' =
       (trace w ++
          [EvDB OpBegin None; EvDB OpSelectLockForUpdate None;
           EvDB OpRollback f])%list) /\
  (fst (acquireLock no_faults scenario_empty) = Err errUpdateWithoutWhere /\
   lock_is_locked (db (snd (acquireLock no_faults scenario_empty))) = false).
Proof.
  cbv zeta. split; [|split; [|split; [|by vm_compute]]].
  all: destruct (acquireLock faults w) as [r w'] eqn:H; simpl.
  all: unfold_m; unfold db_update_lock, fail in H; crunch; try done.
  all: intros; simplify_eq/=; try congruence.
  all: match goal with E : lock_is_locked _ = _ |- _ => rewrite E end.
  all: split; [done|]; by eexists; rewrite <- !app_assoc.
Qed.

(** The pending set is empty exactly when every registered name is in the
    ledger. *)
Lemma pending_nil_iff ms (t : list row) :
  filterMigrations ms (map scan t) false = [] <->
  Forall (fun m => Name m ∈ map row_name t) ms.
Proof.
  split; [|apply pending_nil].
  rewrite filterMigrations_filter, scan_names.
  induction ms as [|m ms IH]; simpl; [by constructor|].
  destruct (decide (Name m ∈ map row_name t)) as [Hin|Hnin].
  - rewrite bool_decide_eq_true_2 by done. simpl. by constructor; auto.
  - by rewrite bool_decide_eq_false_2.
Qed.

(** C4. When the pending set is empty (and the ledger could be read),
    [migrate] returns [nil] after one database call, the read of the
    ledger: it prints "Migrations already up to date", makes no call on the
    lock row and leaves the database as it was. *)
Theorem C4_migrate_nothing_pending
        (faults : nat -> DBOp -> option error) (clock : nat -> Z)
        (directory : string) w :
  faults (tick w) OpSelectMigrations = None ->
  filterMigrations (migrations w) (map scan (table w)) false = [] ->
  let r := fst (migrate faults clock directory w) in
  let w' := snd (migrate faults clock directory w) in
  r = Ok tt /\
  stdout w' = (stdout w ++ [Println "Migrations already up to date"])%list /\
  trace w' = (trace w ++ [EvDB OpSelectMigrations None])%list /\
  lock_calls (trace w') = lock_calls (trace w) /\
  db w' = db w.
Proof.
  intros Hsel Hnil%pending_nil_iff. simpl.
  rewrite (migrate_up_to_date faults clock directory w Hsel Hnil). simpl.
  repeat split. rewrite lock_calls_app. simpl. by rewrite app_nil_r.
Qed.

(** A run of [migrate] that returns [nil] leaves every registered name in
    the ledger. *)
Lemma migrate_ok_all_completed
      (faults : nat -> DBOp -> option error) (clock : nat -> Z)
      (directory : string) w w1 :
  migrate faults clock directory w = (Ok tt, w1) ->
  Forall (fun m => Name m ∈ map row_name (table w1)) (migrations w1).
Proof.
  intros H. apply migrate_entry in H as (Hmig & _ & Hdb & _ & _ & Hok & _).
  destruct (Hok eq_refl) as [Hnil _].
  unfold table. rewrite Hmig, Hdb. by apply pending_nil_iff.
Qed.

(** After the part of [migrate] under the lock has returned [nil] on the
    pending list, every registered name is in the ledger. *)
Lemma migrate_locked_ok_all_completed
      (faults : nat -> DBOp -> option error) (clock : nat -> Z) w w1 :
  Forall up_preserves_ledger (migrations w) ->
  migrate_locked faults clock
    (filterMigrations (migrations w) (map scan (table w)) false) w =
    (Ok tt, w1) ->
  Forall (fun m => Name m ∈ map row_name (table w1)) (migrations w1).
Proof.
  intros Hfr H. apply migrate_locked_spec in H
    as (Hmig & k & new & q & Hk & Htab & Hkeys & _ & _ & _ & _ & Hok & _);
    [|by apply Forall_filterMigrations].
  rewrite (Hok eq_refl), firstn_all in Hkeys.
  apply row_keys_batch in Hkeys as [_ Hnames].
  rewrite Hmig, Htab, map_app. apply Forall_forall. intros m Hm.
  apply elem_of_app.
  destruct (decide (Name m ∈ map row_name (table w))) as [Hin|Hnin];
    [by left|right].
  rewrite Hnames. apply list_elem_of_In, in_map, list_elem_of_In.
  rewrite filterMigrations_filter. apply list_elem_of_In, filter_In.
  split; [by apply list_elem_of_In|].
  by rewrite scan_names, bool_decide_eq_false_2.
Qed.

(** C5. After a run of [migrate] that returned [nil], the next run (if it
    can read the ledger) calls no migration action, writes nothing to the
    ledger, takes no lock, and prints "Migrations already up to date".  So
    does a run that follows a first one taken from the point where it holds
    the lock: after the part of [migrate] under the lock has gone through
    the pending list and returned [nil]. *)
Theorem C5_migrate_twice
        (faults : nat -> DBOp -> option error) (clock : nat -> Z)
        (directory : string) w w1 :
  Forall up_preserves_ledger (migrations w) ->
  faults (tick w1) OpSelectMigrations = None ->
  migrate faults clock directory w = (Ok tt, w1) \/
  migrate_locked faults clock
    (filterMigrations (migrations w) (map scan (table w)) false) w =
    (Ok tt, w1) ->
  let r := fst (migrate faults clock directory w1) in
  let w2 := snd (migrate faults clock directory w1) in
  r = Ok tt /\
  ups (trace w2) = ups (trace w1) /\
  inserts (trace w2) = inserts (trace w1) /\
  deletes (trace w2) = deletes (trace w1) /\
  trace w2 = (trace w1 ++ [EvDB OpSelectMigrations None])%list /\
  db w2 = db w1 /\
  stdout w2 = (stdout w1 ++ [Println "Migrations already up to date"])%list.
Proof.
  intros Hfr Hsel Hrun. simpl.
  assert (Forall (fun m => Name m ∈ map row_name (table w1)) (migrations w1))
    as Hall.
  { destruct Hrun as [Hrun|Hrun].
    - by apply (migrate_ok_all_completed faults clock directory w w1).
    - by apply (migrate_locked_ok_all_completed faults clock w w1). }
  rewrite (migrate_up_to_date faults clock directory w1 Hsel Hall). simpl.
  rewrite ups_app, inserts_app, deletes_app. simpl.
  by rewrite !app_nil_r.
Qed.

(** *** The last batch number *)

Lemma fold_max_init (l : list Z) (a : Z) : a <= fold_left Z.max l a.
Proof.
  revert a. induction l as [|y l IH]; intros a; simpl; [lia|].
  specialize (IH (Z.max a y)). lia.
Qed.

Lemma fold_max_elem (l : list Z) (a x : Z) :
  x ∈ l -> x <= fold_left Z.max l a.
Proof.
  revert a. induction l as [|y l IH]; intros a Hx; simpl.
  - by apply elem_of_nil in Hx.
  - apply elem_of_cons in Hx as [->|Hx]; [|by apply IH].
    pose proof (fold_max_init l (Z.max a y)). lia.
Qed.

Lemma fold_max_in (l : list Z) (a : Z) :
  fold_left Z.max l a = a \/ fold_left Z.max l a ∈ l.
Proof.
  revert a. induction l as [|y l IH]; intros a; simpl; [by left|].
  destruct (IH (Z.max a y)) as [H|H].
  - rewrite H. destruct (Z.max_spec a y) as [[_ ->]|[_ ->]];
      [right; by left | by left].
  - right. by right.
Qed.

(** SQL's [COALESCE(MAX(batch), 0)]: 0 over the empty ledger, otherwise a
    batch number of the ledger that no other exceeds. *)
Lemma sql_coalesce_max_batch_spec (t : list row) :
  (t = [] -> sql_coalesce_max_batch t = 0) /\
  (forall x, x ∈ t -> row_batch x <= sql_coalesce_max_batch t) /\
  (t ≠ [] -> exists x, x ∈ t /\ row_batch x = sql_coalesce_max_batch t).
Proof.
  destruct t as [|y t].
  { split; [done|]. split; [by intros x Hx%elem_of_nil | done]. }
  unfold sql_coalesce_max_batch. simpl. split; [done|]. split.
  - intros x [->|Hx]%elem_of_cons; [apply fold_max_init|].
    apply fold_max_elem, list_elem_of_In, in_map, list_elem_of_In, Hx.
  - intros _. destruct (fold_max_in (map row_batch t) (row_batch y)) as [H|H].
    + exists y. split; [by left | done].
    + apply list_elem_of_In, in_map_iff in H as (x & Hx & Hin).
      exists x. split; [right; by apply list_elem_of_In | done].
Qed.

(** C6. The part of [migrate] that executes the migrations (from line 63
    on) queries the batch number exactly once, and every ledger entry it
    inserts carries that one number, [lastBatchNumber() + 1] in [int32]
    arithmetic: the entries inserted are those of the first [k] pending
    migrations, each under its name and this number, and all of them
    ([k] is their count) when the run returns [nil].  [lastBatchNumber()]
    is the greatest batch of the ledger, or 0 on an empty ledger. *)
Theorem C6_one_batch_number_per_run
        (faults : nat -> DBOp -> option error) (clock : nat -> Z)
        (uncompleted : list (migration Schema)) w r w' :
  Forall up_preserves_ledger uncompleted ->
  migrate_locked faults clock uncompleted w = (r, w') ->
  let last := sql_coalesce_max_batch (table w) in
  let batch := add32 last 1 in
  (exists (k : nat) (new : list row) (q : option error),
     (k <= length uncompleted)%nat /\
     table w' = (table w ++ new)%list /\
     map row_key new = map (fun x => (Name x, batch)) (take k uncompleted) /\
     Forall (fun x => row_batch x = batch) new /\
     inserts (trace w') = (inserts (trace w) ++ map row_key new)%list /\
     batch_queries (trace w') =
       (batch_queries (trace w) ++ [EvDB OpSelectMaxBatch q])%list /\
     (q ≠ None -> new = [] /\ ups (trace w') = ups (trace w)) /\
     (r = Ok tt ->
      q = None /\ k = length uncompleted /\
      ups (trace w') = (ups (trace w) ++ map Name uncompleted)%list)) /\
  (forall b w1, getLastBatchNumber faults w = (Ok b, w1) -> b = last) /\
  (table w = [] -> last = 0) /\
  (forall x, x ∈ table w -> row_batch x <= last) /\
  (table w ≠ [] -> exists x, x ∈ table w /\ row_batch x = last) /\
  (- 2 ^ 31 <= last + 1 <= max_int32 -> batch = last + 1).
Proof.
  intros Hfr H. simpl.
  apply migrate_locked_spec in H
    as (_ & k & new & q & Hk & Htab & Hkeys & Hins & Hbq & Hups & Hq & Hok & Hqok);
    [|done].
  pose proof (row_keys_batch _ _ _ Hkeys) as [Hbatch _].
  destruct (sql_coalesce_max_batch_spec (table w)) as (H0 & Hge & Hin).
  split; [|repeat split; try done].
  - exists k, new, q. repeat split; try done.
    + destruct (Hq H) as [-> _]. by destruct new.
    + by apply Hq.
    + by apply Hqok.
    + by apply Hok.
    + rewrite (Hok H), !firstn_all in Hups.
      destruct Hups as [Hups|Hups]; [done|].
      by rewrite take_ge in Hups by lia.
  - intros b w1. unfold_m. intros Hb. by crunch.
  - unfold max_int32. intros Hrange. unfold add32, wrap32.
    rewrite Z.mod_small; lia.
Qed.

Lemma prefix_app (s t : string) : String.prefix s (s ++ t) = true.
Proof.
  induction s as [|a s IH]; simpl; [by destruct t|].
  by destruct (ascii_dec a a).
Qed.

(** C1. Fail-fast loops.  Take a list of migrations being applied (or
    rolled back) in which the ones before some position all succeed and
    the call of the action at that position returns an error [e].  Then the
    loop ends right there with the error ["name: e"], whose prefix is the
    failing migration's name; the ledger has gained (lost) exactly the
    entries of the migrations before that position; and no action of a
    later migration has been called. *)
Theorem C1_fail_fast
        (faults : nat -> DBOp -> option error) (clock : nat -> Z)
        (batch : Z) (pre post : list (migration Schema)) m w w1 w2
        (e : error) :
  (Forall up_preserves_ledger (pre ++ [m]) ->
   migrate_loop faults clock batch pre w = (Ok tt, w1) ->
   run_up faults m w1 = (Err e, w2) ->
   migrate_loop faults clock batch (pre ++ m :: post) w =
     (Err (fmt_Errorf_name (Name m) e), w2) /\
   String.prefix (Name m) (fmt_Errorf_name (Name m) e) = true /\
   (exists new, table w2 = (table w ++ new)%list /\
                map row_key new = map (fun x => (Name x, batch)) pre) /\
   inserts (trace w2) =
     (inserts (trace w) ++ map (fun x => (Name x, batch)) pre)%list /\
   deletes (trace w2) = deletes (trace w) /\
   (ups (trace w2) = (ups (trace w) ++ map Name pre)%list \/
    ups (trace w2) = (ups (trace w) ++ map Name (pre ++ [m]))%list)) /\
  (Forall down_preserves_ledger (pre ++ [m]) ->
   rollback_loop faults pre w = (Ok tt, w1) ->
   run_down faults m w1 = (Err e, w2) ->
   rollback_loop faults (pre ++ m :: post) w =
     (Err (fmt_Errorf_name (Name m) e), w2) /\
   String.prefix (Name m) (fmt_Errorf_name (Name m) e) = true /\
   table w2 = filter (fun x => row_name x ∉ map Name pre) (table w) /\
   deletes (trace w2) = (deletes (trace w) ++ map Name pre)%list /\
   inserts (trace w2) = inserts (trace w) /\
   (downs (trace w2) = (downs (trace w) ++ map Name pre)%list \/
    downs (trace w2) = (downs (trace w) ++ map Name (pre ++ [m]))%list)).
Proof.
  split.
  - intros [Hpre Hm]%Forall_app Hloop Hfail.
    apply Forall_inv in Hm.
    split; [|split; [apply prefix_app|]].
    { rewrite migrate_loop_app, Hloop. simpl.
      unfold mbind, M_bind, bind, migrate_step, bind_wrap.
      change (run_up faults (with_Batch batch m) w1)
        with (run_up faults m w1).
      by rewrite Hfail. }
    apply migrate_loop_spec in Hloop
      as (_ & _ & _ & Hx1 & k & new & _ & Htab & Hkeys & Hins & _ & Hok);
      [|done].
    destruct (Hok eq_refl) as [-> Hups]. rewrite firstn_all in Hkeys, Hins.
    apply run_up_spec in Hfail as (_ & _ & Htab' & _ & Hj); [|done].
    assert (inserts (trace w2) = inserts (trace w1) /\
            deletes (trace w2) = deletes (trace w1)) as [Hi Hx].
    { destruct Hj as [Hj|Hj]; [by apply journal_same in Hj as (_ & _ & ? & ?)|].
      apply journal_inserts in Hj as Hji. apply journal_deletes in Hj as Hjx.
      simpl in *. by rewrite Hji, Hjx, !app_nil_r. }
    repeat split.
    + exists new. by rewrite Htab', Htab.
    + by rewrite Hi, Hins.
    + by rewrite Hx, Hx1.
    + destruct Hj as [Hj|Hj].
      * left. apply journal_same in Hj as (-> & _). done.
      * right. apply journal_ups in Hj. rewrite Hj, Hups, map_app. simpl.
        by rewrite <- app_assoc.
  - intros [Hpre Hm]%Forall_app Hloop Hfail.
    apply Forall_inv in Hm.
    split; [|split; [apply prefix_app|]].
    { rewrite rollback_loop_app, Hloop. simpl.
      unfold mbind, M_bind, bind, rollback_step, bind_wrap.
      by rewrite Hfail. }
    apply rollback_loop_spec in Hloop
      as (_ & _ & _ & Hins & k & _ & Htab & Hdel & _ & Hok); [|done].
    destruct (Hok eq_refl) as [-> Hdowns]. rewrite firstn_all in Htab, Hdel.
    apply run_down_spec in Hfail as (_ & _ & Htab' & _ & Hj); [|done].
    assert (inserts (trace w2) = inserts (trace w1) /\
            deletes (trace w2) = deletes (trace w1)) as [Hi Hx].
    { destruct Hj as [Hj|Hj]; [by apply journal_same in Hj as (_ & _ & ? & ?)|].
      apply journal_inserts in Hj as Hji. apply journal_deletes in Hj as Hjx.
      simpl in *. by rewrite Hji, Hjx, !app_nil_r. }
    repeat split.
    + by rewrite Htab', Htab.
    + by rewrite Hx, Hdel.
    + by rewrite Hi, Hins.
    + destruct Hj as [Hj|Hj].
      * left. apply journal_same in Hj as (_ & -> & _). done.
      * right. apply journal_downs in Hj. rewrite Hj, Hdowns, map_app. simpl.
        by rewrite <- app_assoc.
Qed.

(** *** Who is rolled back *)

(** C8.  [rollback] does not get to the last batch: it asks for the lock
    before it looks at the ledger's batches, and [acquireLock] never gives
    it.  So no run of [rollback] returns [nil], reverses anything or
    deletes anything.  In scenario B, on a driver that does not fail, it
    returns the error of the lock update and the ledger keeps its three
    entries; the part of [rollback] that would follow (from line 31 on),
    run on the same ledger, reverses and deletes the two batch-5 entries, in
    descending order of name, and leaves the batch-4 entry. *)
Theorem C8_rollback_stops_at_the_lock
        (faults : nat -> DBOp -> option error) (directory : string) w :
  (let r := fst (rollback faults directory w) in
   let w' := snd (rollback faults directory w) in
   r ≠ Ok tt /\ db w' = db w /\
   downs (trace w') = downs (trace w) /\
   deletes (trace w') = deletes (trace w)) /\
  (let end_B := snd (rollback no_faults "" scenario_B) in
   fst (rollback no_faults "" scenario_B) = Err errUpdateWithoutWhere /\
   downs (trace end_B) = [] /\
   deletes (trace end_B) = [] /\
   table end_B =
     [mkRow 1 "123" 4 0; mkRow 2 "456" 5 0; mkRow 3 "789" 5 0]) /\
  (let under_lock :=
     rollback_locked no_faults (map scan (table scenario_B_sorted))
                     scenario_B_sorted in
   fst under_lock = Ok tt /\
   downs (trace (snd under_lock)) = ["789"; "456"] /\
   deletes (trace (snd under_lock)) = ["789"; "456"] /\
   table (snd under_lock) = [mkRow 1 "123" 4 0]).
Proof.
  split; [|split; by vm_compute].
  simpl. destruct (rollback faults directory w) as [r w'] eqn:H. simpl.
  apply rollback_entry in H as (_ & Hr & _ & Hdb & _ & Hj & _).
  apply journal_same in Hj as (_ & Hd & _ & Hx). done.
Qed.

Lemma elem_of_filter_names (names : list string) (t : list row) (x : row) :
  x ∈ filter (fun y => row_name y ∉ names) t <-> x ∈ t /\ row_name x ∉ names.
Proof. rewrite list_elem_of_filter. tauto. Qed.

Lemma elem_of_map_take (targets : list (migration Schema)) (k : nat)
      (n : string) :
  n ∈ map Name (take k targets) -> n ∈ map Name targets.
Proof.
  intros Hn. apply list_elem_of_In, in_map_iff in Hn as (a & <- & Ha).
  apply list_elem_of_In, in_map. by eapply list_elem_of_In, subseteq_take,
    list_elem_of_In.
Qed.


Lemma List_filter_none {A} (f : A -> bool) (l : list A) :
  (forall x, x ∈ l -> f x = false) -> List.filter f l = [].
Proof.
  induction l as [|x l IH]; intros Hl; simpl; [done|].
  rewrite (Hl x) by (by left). apply IH. intros y Hy. apply Hl. by right.
Qed.





(** *** The deferred release *)


(** *** The lock comes first *)

(** The first three calls of a rollback whose ledger read and [Begin]
    succeed: the ledger, the transaction, the lock row.  When the row is
    read and the lock is held, the run ends with [ErrAlreadyLocked]. *)
Lemma rollback_lock_first
      (faults : nat -> DBOp -> option error) (directory : string) w :
  faults (tick w) OpSelectMigrations = None ->
  faults (S (tick w)) OpBegin = None ->
  let f := faults (S (S (tick w))) OpSelectLockForUpdate in
  (exists rest,
     trace (snd (rollback faults directory w)) =
       (trace w ++
          [EvDB OpSelectMigrations None; EvDB OpBegin None;
           EvDB OpSelectLockForUpdate f] ++ rest)%list) /\
  (lock_is_locked (db w) = true -> f = None ->
   fst (rollback faults directory w) = Err ErrAlreadyLocked).
Proof.
  intros Hsel Hbegin. simpl.
  destruct (rollback faults directory w) as [r w'] eqn:H. simpl.
  unfold rollback in H. unfold_m. unfold db_update_lock, fail in H.
  simpl in H. rewrite Hsel in H. simpl in H. rewrite Hbegin in H. simpl in H.
  split; [|intros Hl Hf]; crunch; simpl; try done; try congruence;
    eexists; rewrite <- !app_assoc; simpl; reflexivity.
Qed.

Lemma rollbackNamed_lock_first
      (faults : nat -> DBOp -> option error) (directory names : string) w :
  faults (tick w) OpSelectMigrations = None ->
  faults (S (tick w)) OpBegin = None ->
  let f := faults (S (S (tick w))) OpSelectLockForUpdate in
  (exists rest,
     trace (snd (rollbackNamed faults directory names w)) =
       (trace w ++
          [EvDB OpSelectMigrations None; EvDB OpBegin None;
           EvDB OpSelectLockForUpdate f] ++ rest)%list) /\
  (lock_is_locked (db w) = true -> f = None ->
   fst (rollbackNamed faults directory names w) = Err ErrAlreadyLocked).
Proof.
  intros Hsel Hbegin. simpl.
  destruct (rollbackNamed faults directory names w) as [r w'] eqn:H. simpl.
  unfold rollbackNamed in H. unfold_m. unfold db_update_lock, fail in H.
  simpl in H. rewrite Hsel in H. simpl in H. rewrite Hbegin in H. simpl in H.
  split; [|intros Hl Hf]; crunch; simpl; try done; try congruence;
    eexists; rewrite <- !app_assoc; simpl; reflexivity.
Qed.

(** No target, no change: the loop over an empty list of targets. *)
Lemma rollbackNamed_locked_no_targets
      (faults : nat -> DBOp -> option error) (names : list string) w :
  filterMigrations (migrations w)
    (select_named (map scan (table w)) names) true = [] ->
  let out := rollbackNamed_locked faults (map scan (table w)) names w in
  db (snd out) = db w /\
  downs (trace (snd out)) = downs (trace w) /\
  deletes (trace (snd out)) = deletes (trace w).
Proof.
  intros Hnil. simpl.
  destruct (rollbackNamed_locked _ _ _ _) as [r w'] eqn:H. simpl.
  unfold rollbackNamed_locked in H. unfold_top. unfold table in *.
  simpl in H. crunch.
  all: try match goal with
       | E : rollback_loop _ _ _ = _ |- _ =>
           rewrite Hnil in E; simpl in E; unfold ret in E; simplify_eq
       end.
  all: simpl; rewrite ?downs_app, ?deletes_app; simpl; rewrite ?app_nil_r.
  all: by repeat split.
Qed.

(** C3 as stated fails.  With no batch in the ledger and the lock held,
    [rollback] is not a no-op that leaves the lock aside: it reads the lock
    row and returns [ErrAlreadyLocked], having printed nothing; so does
    [rollbackNamed] when no completed entry bears a listed name.  With the
    lock free, the lock row is read just the same.  And under the lock, a
    named rollback whose selection is emptied only by the registry (A is
    listed and completed, but not registered) reverses nothing and prints,
    not "No such named migrations exist! ", but that it rolls back 0
    migrations. *)
Lemma C3_counterexample :
  (sql_coalesce_max_batch (table scenario_locked) = 0 /\
   fst (rollback no_faults "" scenario_locked) = Err ErrAlreadyLocked /\
   lock_calls (trace (snd (rollback no_faults "" scenario_locked))) =
     [EvDB OpSelectLockForUpdate None] /\
   stdout (snd (rollback no_faults "" scenario_locked)) = []) /\
  (select_named (map (@scan unit) (table (held scenario_B)))
                (listed_names "999") = [] /\
   fst (rollbackNamed no_faults "" "999" (held scenario_B)) =
     Err ErrAlreadyLocked /\
   lock_calls (trace (snd (rollbackNamed no_faults "" "999" (held scenario_B)))) =
     [EvDB OpSelectLockForUpdate None] /\
   stdout (snd (rollbackNamed no_faults "" "999" (held scenario_B))) = []) /\
  (lock_calls (trace (snd (rollback no_faults "" scenario_empty))) ≠ [] /\
   lock_calls (trace (snd (rollbackNamed no_faults "" "999" scenario_B))) ≠ []) /\
  (let under_lock :=
     rollbackNamed_locked no_faults (map scan (table scenario_orphan))
                          (listed_names "A") scenario_orphan in
   filterMigrations (migrations scenario_orphan)
     (select_named (map scan (table scenario_orphan)) (listed_names "A"))
     true = [] /\
   fst under_lock = Ok tt /\
   downs (trace (snd under_lock)) = [] /\
   stdout (snd under_lock) =
     [Printf ("Rolling back 0 selected migration(s)..." ++ LF) []]).
Proof. by vm_compute. Qed.

(** C3, amended.  Both rollback entry points go for the lock before they
    look at the ledger's batches: when the ledger is read and the
    transaction begun, the next call reads the lock row, and if the lock is
    held the run ends there with [ErrAlreadyLocked], having printed
    nothing, reversed nothing and changed nothing.  The short-circuits come
    in the parts that follow the taking of the lock.  There, a batch
    rollback over a ledger without batches changes nothing, and prints "No
    migrations have been run yet" and returns [nil] when its query goes
    through; a named rollback whose selection is empty changes nothing, and
    when no completed entry is listed it prints "No such named migrations
    exist! " (or the other line when the last batch number is 0) and
    returns [nil]. *)
Theorem C3_rollback_goes_for_the_lock_first
        (faults : nat -> DBOp -> option error) (directory names : string)
        (completed : list (migration Schema)) w :
  (faults (tick w) OpSelectMigrations = None ->
   faults (S (tick w)) OpBegin = None ->
   let f := faults (S (S (tick w))) OpSelectLockForUpdate in
   (exists rest,
      trace (snd (rollback faults directory w)) =
        (trace w ++
           [EvDB OpSelectMigrations None; EvDB OpBegin None;
            EvDB OpSelectLockForUpdate f] ++ rest)%list) /\
   (exists rest,
      trace (snd (rollbackNamed faults directory names w)) =
        (trace w ++
           [EvDB OpSelectMigrations None; EvDB OpBegin None;
            EvDB OpSelectLockForUpdate f] ++ rest)%list) /\
   (lock_is_locked (db w) = true -> f = None ->
    fst (rollback faults directory w) = Err ErrAlreadyLocked /\
    fst (rollbackNamed faults directory names w) = Err ErrAlreadyLocked)) /\
  (lock_is_locked (db w) = true ->
   (let w' := snd (rollback faults directory w) in
    db w' = db w /\ stdout w' = stdout w /\
    downs (trace w') = downs (trace w) /\
    deletes (trace w') = deletes (trace w)) /\
   (let w' := snd (rollbackNamed faults directory names w) in
    db w' = db w /\ stdout w' = stdout w /\
    downs (trace w') = downs (trace w) /\
    deletes (trace w') = deletes (trace w))) /\
  (sql_coalesce_max_batch (table w) = 0 ->
   let out := rollback_locked faults completed w in
   db (snd out) = db w /\
   downs (trace (snd out)) = downs (trace w) /\
   deletes (trace (snd out)) = deletes (trace w) /\
   (faults (tick w) OpSelectMaxBatch = None ->
    fst out = Ok tt /\
    stdout (snd out) =
      (stdout w ++ [Println "No migrations have been run yet"])%list)) /\
  (let listed := listed_names names in
   let selected := select_named (map scan (table w)) listed in
   let out := rollbackNamed_locked faults (map scan (table w)) listed w in
   (filterMigrations (migrations w) selected true = [] ->
    db (snd out) = db w /\
    downs (trace (snd out)) = downs (trace w) /\
    deletes (trace (snd out)) = deletes (trace w)) /\
   (selected = [] -> faults (tick w) OpSelectMaxBatch = None ->
    fst out = Ok tt /\
    stdout (snd out) =
      (stdout w ++
         [if (sql_coalesce_max_batch (table w) =? 0)%Z
          then Println "No migrations have been run yet"
          else Print ("No such named migrations exist! " ++ LF)])%list)).
Proof.
  split; [|split; [|split; [|split]]].
  - intros Hsel Hbegin. simpl.
    destruct (rollback_lock_first faults directory w Hsel Hbegin)
      as [Ht Hr].
    destruct (rollbackNamed_lock_first faults directory names w Hsel Hbegin)
      as [Ht' Hr'].
    split; [done|]. split; [done|]. intros Hl Hf. by split; auto.
  - intros _. simpl. split.
    + destruct (rollback faults directory w) as [r w'] eqn:H. simpl.
      apply rollback_entry in H as (_ & _ & _ & Hdb & Hout & Hj & _).
      by apply journal_same in Hj as (_ & Hd & _ & Hx).
    + destruct (rollbackNamed faults directory names w) as [r w'] eqn:H.
      simpl.
      apply rollbackNamed_entry in H as (_ & _ & _ & Hdb & Hout & Hj & _).
      by apply journal_same in Hj as (_ & Hd & _ & Hx).
  - intros Hlast. simpl.
    destruct (rollback_locked faults completed w) as [r w'] eqn:H. simpl.
    unfold rollback_locked in H. unfold_top. unfold table in *.
    simpl in H. crunch.
    all: try match goal with
         | E : (_ =? 0)%Z = false |- _ => apply Z.eqb_neq in E; done
         end.
    all: simpl; rewrite ?downs_app, ?deletes_app; simpl; rewrite ?app_nil_r.
    all: by repeat split.
  - apply rollbackNamed_locked_no_targets.
  - intros Hnil Hq.
    destruct (rollbackNamed_locked _ _ _ _) as [r w'] eqn:H. simpl.
    unfold rollbackNamed_locked in H. unfold_top. unfold table in *.
    simpl in H. rewrite Hq in H. simpl in H. rewrite Hnil in H. simpl in H.
    destruct (_ =? 0)%Z; by simplify_eq/=.
Qed.

End Claims.

(** ** The claims on concrete runs *)

Lemma test_actions_preserve_ledger (name : string) :
  up_preserves_ledger (definition name) /\
  down_preserves_ledger (definition name) /\
  up_preserves_ledger (failing name) /\
  down_preserves_ledger (failing name).
Proof. repeat split; intros a [= <-] s; reflexivity. Qed.

Lemma definitions_preserve_ledger (names : list string) :
  Forall up_preserves_ledger (map definition names) /\
  Forall down_preserves_ledger (map definition names).
Proof.
  split; apply Forall_forall; intros m Hm;
    apply list_elem_of_In, in_map_iff in Hm as (n & <- & _);
    apply test_actions_preserve_ledger.
Qed.

Lemma C1_witness :
  migrate_loop no_faults tick_clock 1
               [definition "A"; failing "B"; definition "C"] scenario_empty =
    (Err "B: error", after_failed_B) /\
  rollback_loop no_faults [definition "B"; failing "A"; definition "C"]
                scenario_C =
    (Err "A: error", after_failed_down_A).
Proof.
  split.
  - apply (C1_fail_fast no_faults tick_clock 1 [definition "A"]
             [definition "C"] (failing "B") scenario_empty after_A
             after_failed_B "error").
    + repeat constructor; apply test_actions_preserve_ledger.
    + vm_compute; reflexivity.
    + vm_compute; reflexivity.
  - apply (C1_fail_fast no_faults tick_clock 1 [definition "B"]
             [definition "C"] (failing "A") scenario_C after_down_B
             after_failed_down_A "error").
    + repeat constructor; apply test_actions_preserve_ledger.
    + vm_compute; reflexivity.
    + vm_compute; reflexivity.
Defined.


Lemma C2_witness :
  fst (acquireLock no_faults scenario_locked) = Err ErrAlreadyLocked /\
  db (snd (acquireLock no_faults scenario_locked)) = db scenario_locked /\
  fst (acquireLock no_faults scenario_empty) = Err errUpdateWithoutWhere /\
  db (snd (acquireLock no_faults scenario_empty)) = db scenario_empty.
Proof.
  destruct (C2_acquireLock_checks_but_never_sets no_faults scenario_locked)
    as (_ & Hdb & Herr & _).
  destruct (C2_acquireLock_checks_but_never_sets no_faults scenario_empty)
    as (_ & Hdb' & Herr' & _).
  destruct (Herr eq_refl eq_refl) as [Hr _].
  destruct (Herr' eq_refl eq_refl) as [Hr' _].
  exact (conj Hr (conj Hdb (conj Hr' Hdb'))).
Defined.

Lemma C3_witness :
  fst (rollback no_faults "" scenario_locked) = Err ErrAlreadyLocked /\
  stdout (snd (rollback no_faults "" scenario_locked)) = [] /\
  stdout (snd (rollback_locked no_faults [] scenario_empty)) =
    [Println "No migrations have been run yet"] /\
  stdout (snd (rollbackNamed_locked no_faults (map scan (table scenario_B))
                                    (listed_names "999") scenario_B)) =
    [Print ("No such named migrations exist! " ++ LF)].
Proof.
  destruct (C3_rollback_goes_for_the_lock_first no_faults "" "999" []
              scenario_locked) as (Hfirst & Hheld & _).
  destruct (C3_rollback_goes_for_the_lock_first no_faults "" "999" []
              scenario_empty) as (_ & _ & Hbatch & _).
  destruct (C3_rollback_goes_for_the_lock_first no_faults "" "999" []
              scenario_B) as (_ & _ & _ & _ & Hnamed).
  destruct (Hfirst eq_refl eq_refl) as (_ & _ & Hlocked).
  destruct (Hlocked eq_refl eq_refl) as [Hr _].
  destruct (Hheld eq_refl) as [(_ & Hout & _) _].
  destruct (Hbatch eq_refl) as (_ & _ & _ & Hrun).
  destruct (Hrun eq_refl) as [_ Hout'].
  destruct Hnamed as [_ Hout'']; [vm_compute; reflexivity | reflexivity |].
  exact (conj Hr (conj Hout (conj Hout' Hout''))).
Defined.

Lemma C4_witness :
  fst (migrate no_faults tick_clock "" scenario_done) = Ok tt /\
  stdout (snd (migrate no_faults tick_clock "" scenario_done)) =
    [Println "Migrations already up to date"] /\
  lock_calls (trace (snd (migrate no_faults tick_clock "" scenario_done))) = [].
Proof.
  destruct (C4_migrate_nothing_pending no_faults tick_clock ""
              scenario_done) as (Hr & Hout & _ & Hlock & _).
  - reflexivity.
  - vm_compute; reflexivity.
  - exact (conj Hr (conj Hout Hlock)).
Defined.

Lemma C5_witness :
  (let second := migrate no_faults tick_clock ""
                         (snd (migrate no_faults tick_clock "" scenario_done)) in
   fst second = Ok tt /\
   ups (trace (snd second)) = [] /\
   inserts (trace (snd second)) = []) /\
  (let second := migrate no_faults tick_clock "" after_scenario_A in
   fst second = Ok tt /\
   ups (trace (snd second)) = ["A"; "B"] /\
   inserts (trace (snd second)) = [("A", 1); ("B", 1)]).
Proof.
  split.
  - destruct (C5_migrate_twice no_faults tick_clock "" scenario_done
                (snd (migrate no_faults tick_clock "" scenario_done)))
      as (Hr & Hups & Hins & _).
    + apply (definitions_preserve_ledger ["B"; "A"]).
    + reflexivity.
    + left. vm_compute; reflexivity.
    + refine (conj Hr (conj _ _)); [rewrite Hups | rewrite Hins];
        vm_compute; reflexivity.
  - destruct (C5_migrate_twice no_faults tick_clock "" scenario_A_sorted
                after_scenario_A) as (Hr & Hups & Hins & _).
    + apply (definitions_preserve_ledger ["A"; "B"]).
    + reflexivity.
    + right. vm_compute; reflexivity.
    + refine (conj Hr (conj _ _)); [rewrite Hups | rewrite Hins];
        vm_compute; reflexivity.
Defined.

Lemma C6_witness :
  exists new : list row,
    table after_scenario_A = (table scenario_A_sorted ++ new)%list /\
    map row_key new = [("A", 1); ("B", 1)] /\
    batch_queries (trace after_scenario_A) = [EvDB OpSelectMaxBatch None].
Proof.
  destruct (C6_one_batch_number_per_run no_faults tick_clock
              [definition "A"; definition "B"] scenario_A_sorted
              (Ok tt) after_scenario_A)
    as [(k & new & q & _ & Htab & Hkeys & _ & _ & Hbq & _ & Hok) _].
  - apply (definitions_preserve_ledger ["A"; "B"]).
  - vm_compute; reflexivity.
  - destruct (Hok eq_refl) as (Hq & Hlen & _).
    exists new. rewrite Hq in Hbq. rewrite Hlen in Hkeys.
    exact (conj Htab (conj Hkeys Hbq)).
Defined.



(** ** Further properties of the runner *)

Section Further.
Context {Schema : Type}.
Implicit Types (w : World Schema) (m : migration Schema).
Implicit Types (ms all subset : list (migration Schema)).

Lemma List_filter_all {A} (l : list A) : List.filter (fun _ => true) l = l.
Proof. induction l as [|x l IH]; simpl; [done | by rewrite IH]. Qed.

(** Sorting with [Name(i) < Name(j)] leaves the names in ascending order,
    and so does every selection from the sorted slice. *)
Lemma sort_name_lt_ascending ms (P : migration Schema -> bool) :
  ascending (map Name (List.filter P (sort_Slice name_lt ms))).
Proof.
  unfold ascending.
  assert (StronglySorted (fun a b : migration Schema => name_lt b a = false)
            (sort_Slice name_lt ms)) as Hs.
  { apply sort_Slice_sorted; unfold name_lt; intros a b.
    - apply string_ltb_asym.
    - intros c H1 H2. by apply (string_ltb_negtrans _ (Name b)). }
  induction Hs as [|x t Hs IH Hx]; simpl; [constructor|].
  destruct (P x); simpl; [|done].
  constructor; [done|].
  apply Forall_forall. intros n Hn.
  apply list_elem_of_In, in_map_iff in Hn as (y & <- & Hy).
  apply filter_In in Hy as [Hy _].
  rewrite Forall_forall in Hx. apply list_elem_of_In, Hx in Hy.
  unfold name_lt in Hy. by apply string_leb_ltb.
Qed.

(** X1. Whatever the outcome of the run, every entry point leaves the
    registry a rearrangement of what it was, sorted by name: ascending
    after [migrate], descending after [rollback] and [rollbackNamed]. *)
Theorem X1_registry_left_sorted
        (faults : nat -> DBOp -> option error) (clock : nat -> Z)
        (directory names : string) w :
  (let w' := snd (migrate faults clock directory w) in
   migrations w' ≡ₚ migrations w /\ ascending (map Name (migrations w'))) /\
  (let w' := snd (rollback faults directory w) in
   migrations w' ≡ₚ migrations w /\ descending (map Name (migrations w'))) /\
  (let w' := snd (rollbackNamed faults directory names w) in
   migrations w' ≡ₚ migrations w /\ descending (map Name (migrations w'))).
Proof.
  simpl. repeat split.
  - destruct (migrate _ _ _ _) as [r w'] eqn:E. simpl.
    apply migrate_entry in E as (-> & _). apply sort_Slice_perm.
  - destruct (migrate _ _ _ _) as [r w'] eqn:E. simpl.
    apply migrate_entry in E as (-> & _).
    rewrite <- (List_filter_all (sort_Slice _ _)).
    apply sort_name_lt_ascending.
  - destruct (rollback _ _ _) as [r w'] eqn:E. simpl.
    apply rollback_entry in E as (-> & _). apply sort_Slice_perm.
  - destruct (rollback _ _ _) as [r w'] eqn:E. simpl.
    apply rollback_entry in E as (-> & _).
    rewrite <- (List_filter_all (sort_Slice _ _)).
    apply sort_name_gt_descending.
  - destruct (rollbackNamed _ _ _ _) as [r w'] eqn:E. simpl.
    apply rollbackNamed_entry in E as (-> & _). apply sort_Slice_perm.
  - destruct (rollbackNamed _ _ _ _) as [r w'] eqn:E. simpl.
    apply rollbackNamed_entry in E as (-> & _).
    rewrite <- (List_filter_all (sort_Slice _ _)).
    apply sort_name_gt_descending.
Qed.

(** X2. When the read of the ledger fails, each entry point returns that
    error as it is, right after sorting the registry: the lock row is not
    read, nothing is printed and the database is as it was. *)
Theorem X2_ledger_read_failure
        (faults : nat -> DBOp -> option error) (clock : nat -> Z)
        (directory names : string) w (e : error) :
  faults (tick w) OpSelectMigrations = Some e ->
  let stopped less :=
    mkWorld (sort_Slice less (migrations w)) (db w) (S (tick w))
            (trace w ++ [EvDB OpSelectMigrations (Some e)]) (stdout w) in
  migrate faults clock directory w = (Err e, stopped name_lt) /\
  rollback faults directory w = (Err e, stopped name_gt) /\
  rollbackNamed faults directory names w = (Err e, stopped name_gt).
Proof.
  intros He. simpl.
  unfold migrate, rollback, rollbackNamed. unfold_prelude. simpl.
  by rewrite He.
Qed.

Lemma names_unique_inj (t : list row) (x y : row) :
  names_unique t -> x ∈ t -> y ∈ t -> row_name x = row_name y -> x = y.
Proof.
  unfold names_unique. induction t as [|z t IH]; simpl; intros Hnd Hx Hy Heq.
  - by apply elem_of_nil in Hx.
  - apply NoDup_cons in Hnd as [Hz Hnd].
    apply elem_of_cons in Hx as [->|Hx]; apply elem_of_cons in Hy as [->|Hy];
      try done.
    + exfalso. apply Hz. rewrite Heq.
      apply list_elem_of_In, in_map, list_elem_of_In, Hy.
    + exfalso. apply Hz. rewrite <- Heq.
      apply list_elem_of_In, in_map, list_elem_of_In, Hx.
    + by apply IH.
Qed.

(** The targets of a batch rollback carry names of ledger entries of the
    last batch. *)
Lemma batch_targets_names (registered : list (migration Schema))
      (t : list row) (n : string) :
  n ∈ map Name (batch_targets registered t) ->
  exists x, x ∈ t /\ row_name x = n /\
            row_batch x = sql_coalesce_max_batch t.
Proof.
  unfold batch_targets.
  destruct (sql_coalesce_max_batch t =? 0)%Z; [by intros ?%elem_of_nil|].
  rewrite filterMigrations_filter, getMigrationsForBatch_filter.
  intros Hn. apply list_elem_of_In, in_map_iff in Hn as (a & <- & Ha).
  apply filter_In in Ha as [_ Ha]. apply Bool.eqb_prop in Ha.
  apply bool_decide_eq_true_1 in Ha.
  apply list_elem_of_In, in_map_iff in Ha as (c & Hc & Hin).
  apply filter_In in Hin as [Hin Hb]. apply Z.eqb_eq in Hb.
  apply in_map_iff in Hin as (x & <- & Hx).
  exists x. repeat split; [by apply list_elem_of_In | done | done].
Qed.

Lemma filter_iff_in {A} (P Q : A -> Prop)
      `{forall x, Decision (P x)} `{forall x, Decision (Q x)} (l : list A) :
  (forall x, x ∈ l -> (P x <-> Q x)) -> filter P l = filter Q l.
Proof.
  induction l as [|x l IH]; intros Hl; [done|].
  assert (filter P l = filter Q l) as IH'.
  { apply IH. intros y Hy. apply Hl. by right. }
  destruct (decide (P x)) as [HP|HP].
  - rewrite !filter_cons_True; [by rewrite IH' | | done].
    apply Hl; [by left | done].
  - rewrite !filter_cons_False; [done | | done].
    intros HQ. apply HP, Hl; [by left | done].
Qed.

(** What a rollback of [targets] leaves alone: every ledger entry whose
    name is not a target's stays, in place, and is neither reversed nor
    deleted. *)
Lemma rolled_back_frame (targets : list (migration Schema)) w r w'
      (keep : row -> Prop) `{forall x, Decision (keep x)} :
  rolled_back targets w r w' ->
  (forall x, x ∈ table w -> keep x -> row_name x ∉ map Name targets) ->
  exists ds xs,
    downs (trace w') = (downs (trace w) ++ ds)%list /\
    deletes (trace w') = (deletes (trace w) ++ xs)%list /\
    (forall n, n ∈ ds \/ n ∈ xs -> n ∈ map Name targets) /\
    (forall x, x ∈ table w -> keep x ->
               x ∈ table w' /\ (row_name x ∉ ds) /\ (row_name x ∉ xs)) /\
    filter keep (table w') = filter keep (table w) /\
    (forall x, x ∈ table w' -> x ∈ table w).
Proof.
  intros (_ & _ & k & Hk & Htab & Hdel & Hdowns & _) Hkeep.
  assert (exists k', downs (trace w') =
                     (downs (trace w) ++ map Name (take k' targets))%list)
    as [k' Hd] by (destruct Hdowns; eauto).
  exists (map Name (take k' targets)), (map Name (take k targets)).
  split; [done|]. split; [done|]. split; [|split; [|split]].
  - intros n [Hn|Hn]; by eapply elem_of_map_take.
  - intros x Hx Hkx. pose proof (Hkeep x Hx Hkx) as Hnot.
    rewrite Htab, elem_of_filter_names.
    repeat split; try done; intros Hn; by eapply Hnot, elem_of_map_take.
  - rewrite Htab, list_filter_filter. apply filter_iff_in.
    intros x Hx. split; [tauto|]. intros Hkx.
    split; [done|]. intros Hn. by eapply Hkeep, elem_of_map_take.
  - intros x. rewrite Htab, elem_of_filter_names. tauto.
Qed.

(** A registered name borne by an entry of the last batch is the name of
    a target. *)
Lemma batch_targets_complete (registered : list (migration Schema))
      (t : list row) (x : row) :
  sql_coalesce_max_batch t ≠ 0 ->
  x ∈ t -> row_batch x = sql_coalesce_max_batch t ->
  row_name x ∈ map Name registered ->
  row_name x ∈ map Name (batch_targets registered t).
Proof.
  intros Hlast Hx Hb Hreg. unfold batch_targets.
  apply Z.eqb_neq in Hlast. rewrite Hlast.
  rewrite filterMigrations_filter, getMigrationsForBatch_filter.
  apply list_elem_of_In, in_map_iff in Hreg as (a & Ha & Hin).
  apply list_elem_of_In, in_map_iff. exists a. split; [done|].
  apply filter_In. split; [done|].
  apply Bool.eqb_true_iff, bool_decide_eq_true.
  rewrite Ha. apply list_elem_of_In, in_map_iff. exists (scan x).
  split; [done|]. apply filter_In. split.
  - apply in_map. by apply list_elem_of_In.
  - simpl. by apply Z.eqb_eq.
Qed.

(** X3. The part of [rollback] under the lock (from line 31 on) touches
    only ledger entries of the last batch.  On a ledger in which no name
    occurs twice, whatever the outcome: every reverse action called and
    every entry deleted bears the name of an entry of the greatest batch;
    every entry of another batch is still in the ledger, in place, and was
    neither reversed nor deleted; nothing was added; and when the part
    returns [nil], no entry of the last batch with a registered name is
    left. *)
Theorem X3_rollback_locked_last_batch_only
        (faults : nat -> DBOp -> option error) w r w' :
  Forall down_preserves_ledger (migrations w) ->
  names_unique (table w) ->
  rollback_locked faults (map scan (table w)) w = (r, w') ->
  let last := sql_coalesce_max_batch (table w) in
  (exists ds xs,
     downs (trace w') = (downs (trace w) ++ ds)%list /\
     deletes (trace w') = (deletes (trace w) ++ xs)%list /\
     (forall n, n ∈ ds \/ n ∈ xs ->
                exists x, x ∈ table w /\ row_name x = n /\ row_batch x = last) /\
     (forall x, x ∈ table w -> row_batch x ≠ last ->
                x ∈ table w' /\ (row_name x ∉ ds) /\ (row_name x ∉ xs))) /\
  filter (fun x => row_batch x ≠ last) (table w') =
    filter (fun x => row_batch x ≠ last) (table w) /\
  (forall x, x ∈ table w' -> x ∈ table w) /\
  (r = Ok tt -> last ≠ 0 ->
   forall x, x ∈ table w -> row_batch x = last ->
             row_name x ∈ map Name (migrations w) -> x ∉ table w').
Proof.
  intros Hfr Huniq Hrun. simpl.
  apply rollback_locked_spec in Hrun as [_ Hrb]; [|done].
  pose proof Hrb as (_ & _ & k & _ & Htab & _ & _ & Hok).
  eapply (rolled_back_frame _ _ _ _
            (fun x => row_batch x ≠ sql_coalesce_max_batch (table w)))
    in Hrb as (ds & xs & Hd & Hx & Hnames & Hkeep & Hfilter & Hsub).
  - split; [|split; [done|split; [done|]]].
    + exists ds, xs. repeat split; try done; try (by apply Hkeep).
      intros n Hn. by eapply batch_targets_names, Hnames.
    + intros Hr Hlast x Hin Hb Hreg. rewrite Htab, (Hok Hr), firstn_all.
      rewrite elem_of_filter_names. intros [_ Hnot]. apply Hnot.
      by apply batch_targets_complete.
  - intros x Hx Hbatch Hn.
    apply batch_targets_names in Hn as (y & Hy & Hname & Hlast).
    apply Hbatch. rewrite <- Hlast. f_equal.
    by apply (names_unique_inj (table w)).
Qed.

(** X4. [filterMigrations(all, subset, true)], which both rollbacks use
    to find their targets, is the definitions of [all] whose name is the
    name of a member of [subset], in the order of [all]: the targets are
    registered definitions (with their functions), not ledger records.
    With [filterMigrations(all, subset, false)] it splits [all] in two;
    over an empty [subset] it is empty and the other is [all]. *)
Theorem X4_filterMigrations_completed all subset :
  filterMigrations all subset true =
    filter (fun a => Name a ∈ map Name subset) all /\
  (filterMigrations all subset true ++ filterMigrations all subset false)%list
    ≡ₚ all /\
  filterMigrations all [] true = [] /\
  filterMigrations all [] false = all.
Proof.
  split; [|split; [|split]].
  - rewrite filterMigrations_filter. apply List_filter_stdpp. intros a.
    by rewrite Bool.eqb_true_iff, bool_decide_eq_true.
  - rewrite !filterMigrations_filter.
    induction all as [|a all IH]; simpl; [done|].
    destruct (bool_decide (Name a ∈ map Name subset)); simpl.
    + by rewrite IH.
    + rewrite <- Permutation_middle. by rewrite IH.
  - rewrite filterMigrations_filter. by apply List_filter_none.
  - rewrite filterMigrations_filter. simpl.
    rewrite <- (List_filter_all all) at 2. by apply List.filter_ext.
Qed.

(** *** Reading the list of names *)

Lemma string_app_cons (c : ascii) (a b : string) :
  (String c a ++ b)%string = String c (a ++ b).
Proof. reflexivity. Qed.

Lemma string_app_nil_r (s : string) : (s ++ "")%string = s.
Proof.
  induction s as [|c s IH]; [done|]. by rewrite string_app_cons, IH.
Qed.

Lemma string_app_assoc (a b c : string) :
  ((a ++ b) ++ c)%string = (a ++ b ++ c)%string.
Proof.
  induction a as [|x a IH]; [done|]. by rewrite !string_app_cons, IH.
Qed.

Lemma occurs_in_app (c : ascii) (a b : string) :
  occurs_in c (a ++ b) <-> occurs_in c a \/ occurs_in c b.
Proof.
  unfold occurs_in. induction a as [|x a IH].
  - simpl. change (("" ++ b)%string) with b. tauto.
  - rewrite string_app_cons. simpl. rewrite IH. tauto.
Qed.

Lemma strings_Replace_removes (s : string) (old : ascii) :
  ~ occurs_in old (strings_Replace s old "").
Proof.
  unfold occurs_in. induction s as [|c s IH]; [by intros []|].
  change (strings_Replace (String c s) old "")
    with (if Ascii.eqb c old then strings_Replace s old ""
          else String c (strings_Replace s old "")).
  destruct (Ascii.eqb c old) eqn:E; [done|].
  intros [->|H]; [|done]. by rewrite Ascii.eqb_refl in E.
Qed.

Lemma strings_Replace_keeps (s : string) (old c : ascii) :
  occurs_in c (strings_Replace s old "") -> occurs_in c s.
Proof.
  unfold occurs_in. induction s as [|x s IH]; [done|].
  change (strings_Replace (String x s) old "")
    with (if Ascii.eqb x old then strings_Replace s old ""
          else String x (strings_Replace s old "")).
  destruct (Ascii.eqb x old); simpl; tauto.
Qed.

Lemma split_from_nonempty (cur s : string) (sep : ascii) :
  split_from cur s sep ≠ [].
Proof.
  revert cur. induction s as [|c s IH]; intros cur; simpl; [done|].
  destruct (Ascii.eqb c sep); [done | apply IH].
Qed.

(** Joining the pieces with the separator gives back what was split. *)
Lemma split_from_concat (cur s : string) (sep : ascii) :
  String.concat (String sep "") (split_from cur s sep) = (cur ++ s)%string.
Proof.
  revert cur. induction s as [|c s IH]; intros cur; simpl.
  - by rewrite string_app_nil_r.
  - destruct (Ascii.eqb c sep) eqn:E.
    + apply Ascii.eqb_eq in E as ->.
      pose proof (split_from_nonempty "" s sep) as Hne.
      specialize (IH ""%string). change (("" ++ s)%string) with s in IH.
      destruct (split_from "" s sep) as [|p ps]; [done|].
      change (String.concat (String sep "") (cur :: p :: ps))
        with (cur ++ (String sep "" ++
                      String.concat (String sep "") (p :: ps)))%string.
      by rewrite IH.
    + by rewrite IH, string_app_assoc.
Qed.

Lemma split_from_chars (cur s : string) (sep c : ascii) (p : string) :
  p ∈ split_from cur s sep -> occurs_in c p ->
  (occurs_in c cur \/ occurs_in c s) /\ (~ occurs_in sep cur -> c ≠ sep).
Proof.
  revert cur. induction s as [|x s IH]; intros cur; simpl.
  - intros ->%list_elem_of_singleton Hc. split; [by left|].
    by intros Hn ->.
  - destruct (Ascii.eqb x sep) eqn:E.
    + intros [->|Hp]%elem_of_cons Hc.
      * split; [by left|]. by intros Hn ->.
      * destruct (IH _ Hp Hc) as [[[]|H1] H2].
        split; [right; unfold occurs_in in *; simpl; tauto|].
        intros _. apply H2. by intros [].
    + intros Hp Hc. destruct (IH _ Hp Hc) as [H1 H2].
      rewrite occurs_in_app in H1. split.
      * unfold occurs_in in *. simpl in *. tauto.
      * intros Hn. apply H2. rewrite occurs_in_app.
        intros [H|[->|[]]]; [done|]. by rewrite Ascii.eqb_refl in E.
Qed.

(** X5. How [rollbackNamed] reads its list of names (lines 81-82): it
    always finds at least one name (the empty name, in an empty list); the
    names joined by commas are the argument without its spaces; so no name
    it finds holds a space or a comma, and every character of a name comes
    from the argument. *)
Theorem X5_names_as_read (names : string) :
  listed_names names ≠ [] /\
  String.concat "," (listed_names names) = strings_Replace names " "%char "" /\
  listed_names "" = [""] /\
  Forall (fun n => ~ occurs_in " "%char n /\ ~ occurs_in ","%char n /\
                   forall c, occurs_in c n -> occurs_in c names)
         (listed_names names).
Proof.
  unfold listed_names, strings_Split.
  split; [apply split_from_nonempty|].
  split; [apply split_from_concat|]. split; [done|].
  apply Forall_forall. intros n Hn. repeat split.
  - intros Hc. destruct (split_from_chars _ _ _ _ _ Hn Hc) as [[[]|H] _].
    by apply strings_Replace_removes in H.
  - intros Hc. destruct (split_from_chars _ _ _ _ _ Hn Hc) as [_ H].
    apply H; [by intros [] | done].
  - intros c Hc. destruct (split_from_chars _ _ _ _ _ Hn Hc) as [[[]|H] _].
    by apply strings_Replace_keeps in H.
Qed.

(** *** The order of the list does not matter *)

Lemma select_named_same (completed : list (migration Schema))
      (l1 l2 : list string) :
  (forall n, n ∈ l1 <-> n ∈ l2) ->
  (forall n, n ∈ map Name (select_named completed l1) <->
             n ∈ map Name (select_named completed l2)) /\
  (0 <? length (select_named completed l1))%nat =
  (0 <? length (select_named completed l2))%nat.
Proof.
  intros Hl.
  assert (forall n, n ∈ map Name (select_named completed l1) <->
                    n ∈ map Name (select_named completed l2)) as Hn.
  { intros n. rewrite !select_named_names, Hl. done. }
  split; [done|].
  destruct (select_named completed l1) as [|a s1] eqn:E1;
    destruct (select_named completed l2) as [|b s2] eqn:E2; try done.
  - specialize (Hn (Name b)). simpl in Hn.
    destruct Hn as [_ Hn]. exfalso.
    eapply not_elem_of_nil, Hn. by left.
  - specialize (Hn (Name a)). simpl in Hn.
    destruct Hn as [Hn _]. exfalso.
    eapply not_elem_of_nil, Hn. by left.
Qed.

Lemma filterMigrations_same all (s1 s2 : list (migration Schema)) want :
  (forall n, n ∈ map Name s1 <-> n ∈ map Name s2) ->
  filterMigrations all s1 want = filterMigrations all s2 want.
Proof.
  intros Hn. rewrite !filterMigrations_filter. apply List.filter_ext.
  intros a. f_equal. apply bool_decide_ext, Hn.
Qed.

(** X6. In the part of [rollbackNamed] under the lock, the names listed
    count as a set: two lists with the same names, in whatever order and
    however often repeated, give the same run. *)
Theorem X6_listed_names_count_as_a_set
        (faults : nat -> DBOp -> option error)
        (completed : list (migration Schema)) (l1 l2 : list string) w :
  (forall n, n ∈ l1 <-> n ∈ l2) ->
  rollbackNamed_locked faults completed l1 w =
  rollbackNamed_locked faults completed l2 w.
Proof.
  intros Hl. destruct (select_named_same completed l1 l2 Hl) as [Hn Hlen].
  unfold rollbackNamed_locked. unfold_top. simpl.
  destruct (faults (tick w) OpSelectMaxBatch); [done|]. simpl.
  destruct (_ =? 0)%Z; [done|]. rewrite Hlen.
  destruct (0 <? length (select_named completed l2))%nat; [|done].
  by rewrite (filterMigrations_same _ _ _ true Hn).
Qed.

(** *** The transaction policy *)

(** X7. How an action is run (migrate.go, lines 74-82; rollback.go, lines
    47-54 and 118-125).  Inside a transaction, a call that does not return
    [nil] leaves the database as it was, whatever the action had done, and
    a call that returns [nil] leaves what the action made of it.  With
    [DisableTransaction] the action is called on the database itself, with
    no driver call around it: what it did stays, also when it fails. *)
Theorem X7_transaction_policy
        (faults : nat -> DBOp -> option error) m w :
  let policy (run : M Schema unit) (f : option (action Schema)) (ev : event) :=
    forall r w', run w = (r, w') ->
      (DisableTransaction m = false ->
         (r ≠ Ok tt -> db w' = db w) /\
         (r = Ok tt -> exists a, f = Some a /\ a (db w) = (db w', None))) /\
      (DisableTransaction m = true ->
         forall a, f = Some a ->
           db w' = fst (a (db w)) /\
           r = match snd (a (db w)) with None => Ok tt | Some e => Err e end /\
           trace w' = (trace w ++ [ev])%list /\ tick w' = tick w) in
  policy (run_up faults m) (Up m) (EvUp (Name m)) /\
  policy (run_down faults m) (Down m) (EvDown (Name m)).
Proof.
  simpl. split; intros r w'; unfold run_up, run_down; unfold_m; intros H.
  - split; intros Hd; rewrite Hd in H.
    + split; intros Hr; crunch; destruct_units; try done.
      eexists; split; [done|]. simpl. by f_equal.
    + intros a Ha. rewrite Ha in H. crunch; by repeat split.
  - split; intros Hd; rewrite Hd in H.
    + split; intros Hr; crunch; destruct_units; try done.
      eexists; split; [done|]. simpl. by f_equal.
    + intros a Ha. rewrite Ha in H. crunch; by repeat split.
Qed.

(** X8. The write to the ledger is not part of the action's transaction
    (migrate.go, line 88; rollback.go, lines 59 and 130).  When the action
    has returned [nil] (and, in a transaction, was committed) and the write
    to the ledger then fails, the step returns that error under the
    migration's name, the ledger is as it was, and what the action did to
    the database stays. *)
Theorem X8_ledger_write_outside_transaction
        (faults : nat -> DBOp -> option error) (clock : nat -> Z)
        (batch : Z) m w (e : error) :
  (DisableTransaction m = false ->
   faults (tick w) OpBegin = None /\ faults (S (tick w)) OpCommit = None) ->
  let t := if DisableTransaction m then tick w else S (S (tick w)) in
  (forall a s, Up m = Some a -> a (db w) = (s, None) ->
     faults t (OpInsertMigration (Name m) batch) = Some e ->
     exists w', migrate_step faults clock batch m w =
                  (Err (fmt_Errorf_name (Name m) e), w') /\
                db w' = s /\ ups (trace w') = (ups (trace w) ++ [Name m])%list /\
                inserts (trace w') = inserts (trace w) /\
                stdout w' = stdout w) /\
  (forall a s, Down m = Some a -> a (db w) = (s, None) ->
     faults t (OpDeleteMigration (Name m)) = Some e ->
     exists w', rollback_step faults m w =
                  (Err (fmt_Errorf_name (Name m) e), w') /\
                db w' = s /\
                downs (trace w') = (downs (trace w) ++ [Name m])%list /\
                deletes (trace w') = deletes (trace w) /\
                stdout w' = stdout w).
Proof.
  intros Htx. simpl. split; intros a s Ha Hs He.
  - unfold migrate_step, run_up. simpl. rewrite Ha.
    destruct (DisableTransaction m) eqn:Hd.
    + unfold_m. simpl. rewrite Hs. simpl. rewrite He.
      eexists; split; [done|]. simpl.
      rewrite !ups_app, !inserts_app. simpl. by rewrite !app_nil_r.
    + destruct Htx as [Hb Hc]; [done|].
      unfold_m. simpl. rewrite Hb. simpl. rewrite Hs. simpl. rewrite Hc.
      simpl. rewrite He.
      eexists; split; [done|]. simpl.
      rewrite !ups_app, !inserts_app. simpl. by rewrite !app_nil_r.
  - unfold rollback_step, run_down. rewrite Ha.
    destruct (DisableTransaction m) eqn:Hd.
    + unfold_m. simpl. rewrite Hs. simpl. rewrite He.
      eexists; split; [done|]. simpl.
      rewrite !downs_app, !deletes_app. simpl. by rewrite !app_nil_r.
    + destruct Htx as [Hb Hc]; [done|].
      unfold_m. simpl. rewrite Hb. simpl. rewrite Hs. simpl. rewrite Hc.
      simpl. rewrite He.
      eexists; split; [done|]. simpl.
      rewrite !downs_app, !deletes_app. simpl. by rewrite !app_nil_r.
Qed.

(** *** A batch rollback after a run of [migrate] *)

Lemma add32_succ (z : Z) : 0 <= z < max_int32 -> add32 z 1 = z + 1.
Proof.
  unfold add32, wrap32, max_int32. intros Hz.
  rewrite Z.mod_small; lia.
Qed.

Lemma last_batch_nonneg (t : list row) :
  batches_positive t -> 0 <= sql_coalesce_max_batch t.
Proof.
  intros Hpos. destruct (sql_coalesce_max_batch_spec t) as (Hnil & _ & Hex).
  destruct t as [|y t]; [by rewrite Hnil|].
  destruct Hex as (x & Hx & <-); [done|].
  unfold batches_positive in Hpos. rewrite Forall_forall in Hpos.
  apply Hpos in Hx. lia.
Qed.

(** The last batch of a ledger to which entries of a greater batch were
    added is that batch. *)
Lemma last_batch_app (t new : list row) (b : Z) :
  new ≠ [] -> Forall (fun x => row_batch x = b) new ->
  sql_coalesce_max_batch t < b ->
  sql_coalesce_max_batch (t ++ new) = b.
Proof.
  intros Hne Hnew Hlt. rewrite Forall_forall in Hnew.
  destruct (sql_coalesce_max_batch_spec (t ++ new)) as (_ & Hle & Hex).
  destruct (sql_coalesce_max_batch_spec t) as (_ & Hle0 & _).
  destruct Hex as (x & Hx & Hb); [by destruct t, new|].
  destruct new as [|y new]; [done|].
  assert (b <= sql_coalesce_max_batch (t ++ y :: new)) as Hge.
  { rewrite <- (Hnew y) by (by left). apply Hle, elem_of_app. right. by left. }
  apply elem_of_app in Hx as [Hx|Hx].
  - apply Hle0 in Hx. lia.
  - apply Hnew in Hx. lia.
Qed.

Lemma filter_all_in {A} (P : A -> Prop) `{forall x, Decision (P x)}
      (l : list A) :
  (forall x, x ∈ l -> P x) -> filter P l = l.
Proof.
  induction l as [|x l IH]; intros Hl; [done|].
  rewrite filter_cons_True by (apply Hl; by left).
  f_equal. apply IH. intros y Hy. apply Hl. by right.
Qed.

Lemma filter_none_in {A} (P : A -> Prop) `{forall x, Decision (P x)}
      (l : list A) :
  (forall x, x ∈ l -> ~ P x) -> filter P l = [].
Proof.
  induction l as [|x l IH]; intros Hl; [done|].
  rewrite filter_cons_False by (apply Hl; by left).
  apply IH. intros y Hy. apply Hl. by right.
Qed.

Lemma pending_filter all (t : list row) :
  filterMigrations all (map scan t) false =
  filter (fun a : migration Schema => Name a ∉ map row_name t) all.
Proof.
  rewrite filterMigrations_filter, scan_names. apply List_filter_stdpp.
  intros a. case_bool_decide; simpl; naive_solver.
Qed.

(** The entries a run of [migrate] has just added are the targets of the
    batch rollback that follows. *)
Lemma batch_targets_after_migrate (registered sorted : list (migration Schema))
      (t new : list row) (b : Z) :
  (forall a, a ∈ sorted <-> a ∈ registered) ->
  b ≠ 0 -> sql_coalesce_max_batch t < b ->
  new ≠ [] -> Forall (fun x => row_batch x = b) new ->
  map row_name new =
    map Name (filterMigrations registered (map scan t) false) ->
  batch_targets sorted (t ++ new) =
  filterMigrations sorted (map scan t) false.
Proof.
  intros Hsort Hb Hlt Hne Hnew Hnames. unfold batch_targets.
  rewrite (last_batch_app t new b) by done.
  apply Z.eqb_neq in Hb. rewrite Hb.
  rewrite pending_filter, filterMigrations_filter, getMigrationsForBatch_filter.
  destruct (sql_coalesce_max_batch_spec t) as (_ & Hle & _).
  rewrite Forall_forall in Hnew.
  assert (forall n, n ∈ map Name (List.filter
                      (fun c : migration Schema => (Batch c =? b)%Z)
                      (map scan (t ++ new))) <-> n ∈ map row_name new) as Hsel.
  { intros n. rewrite !list_elem_of_In, !in_map_iff. split.
    - intros (c & <- & Hc). apply filter_In in Hc as [Hc Hbc].
      apply Z.eqb_eq in Hbc. apply in_map_iff in Hc as (x & <- & Hx).
      exists x. split; [done|].
      apply list_elem_of_In, elem_of_app in Hx as [Hx|Hx];
        [|by apply list_elem_of_In].
      apply Hle in Hx. simpl in Hbc. lia.
    - intros (x & <- & Hx). exists (scan x). split; [done|].
      apply filter_In. split.
      + apply in_map, list_elem_of_In, elem_of_app. right.
        by apply list_elem_of_In.
      + simpl. apply Z.eqb_eq, Hnew. by apply list_elem_of_In. }
  rewrite (List_filter_stdpp _
             (fun a : migration Schema => Name a ∈ map row_name new)).
  2: { intros a. rewrite Bool.eqb_true_iff, bool_decide_eq_true. apply Hsel. }
  apply filter_iff_in. intros a Ha.
  rewrite Hnames, pending_filter. split.
  - intros Hn. apply list_elem_of_In, in_map_iff in Hn as (c & Hc & Hin).
    apply list_elem_of_In, list_elem_of_filter in Hin as [Hin _].
    by rewrite <- Hc.
  - intros Hn. apply list_elem_of_In, in_map. apply list_elem_of_In.
    apply list_elem_of_filter. split; [done | by apply Hsort].
Qed.

(** X9. A batch rollback undoes the run of [migrate] before it.  Take the
    part of [migrate] under the lock on the pending migrations (at least
    one), returning [nil], and then the part of [rollback] under the lock
    on the ledger as it then is, with the registry sorted as [rollback]
    sorts it, returning [nil].  On a ledger of positive batch numbers
    below the greatest [int32], the ledger is back to what it was before
    the two: the migrations applied are the ones reversed, in descending
    order of their names, and their entries the ones deleted. *)
Theorem X9_rollback_undoes_migrate
        (faults : nat -> DBOp -> option error) (clock : nat -> Z) w w1 w2 :
  let uncompleted :=
    filterMigrations (migrations w) (map scan (table w)) false in
  let undone :=
    filterMigrations (sort_Slice name_gt (migrations w))
                     (map scan (table w)) false in
  Forall up_preserves_ledger (migrations w) ->
  Forall down_preserves_ledger (migrations w) ->
  batches_positive (table w) ->
  sql_coalesce_max_batch (table w) < max_int32 ->
  uncompleted ≠ [] ->
  migrate_locked faults clock uncompleted w = (Ok tt, w1) ->
  rollback_locked faults (map scan (table w1))
    (set_migrations (sort_Slice name_gt (migrations w1)) w1) = (Ok tt, w2) ->
  table w2 = table w /\
  ups (trace w1) = (ups (trace w) ++ map Name uncompleted)%list /\
  downs (trace w2) = (downs (trace w1) ++ map Name undone)%list /\
  deletes (trace w2) = (deletes (trace w1) ++ map Name undone)%list /\
  undone ≡ₚ uncompleted.
Proof.
  intros uncompleted undone Hup Hdown Hpos Hmax Hne Hmig Hrb.
  pose proof (last_batch_nonneg _ Hpos) as Hlast.
  apply migrate_locked_spec in Hmig
    as (Hreg & k & new & q & _ & Htab & Hkeys & _ & _ & Hups & _ & Hk & _);
    [|by apply Forall_filterMigrations].
  rewrite (Hk eq_refl), firstn_all in Hkeys.
  rewrite (Hk eq_refl), firstn_all, take_ge in Hups by lia.
  rewrite add32_succ in Hkeys by lia.
  apply row_keys_batch in Hkeys as [Hbatch Hnames].
  assert (new ≠ []) as Hnew.
  { intros ->. destruct uncompleted; [done | discriminate Hnames]. }
  set (w1' := set_migrations (sort_Slice name_gt (migrations w1)) w1) in *.
  change (table w1) with (table w1') in Hrb.
  apply rollback_locked_spec in Hrb as [_ Hrb].
  2: { simpl. rewrite Hreg. by apply Forall_sort_Slice. }
  destruct Hrb as (_ & _ & j & _ & Htab2 & Hdel & Hdowns & Hj).
  change (table w1') with (table w1) in *.
  change (trace w1') with (trace w1) in *.
  change (migrations w1') with (sort_Slice name_gt (migrations w1)) in *.
  rewrite Hreg, Htab in *.
  rewrite (batch_targets_after_migrate (migrations w) _ _ _
             (sql_coalesce_max_batch (table w) + 1)) in *;
    try done; try lia; try (intros a; apply sort_by_name_elem_of).
  fold undone in Htab2, Hdel, Hdowns, Hj.
  rewrite (Hj eq_refl), firstn_all in *. rewrite take_ge in Hdowns by lia.
  assert (undone ≡ₚ uncompleted) as Hperm.
  { unfold undone, uncompleted. rewrite !pending_filter.
    by rewrite sort_Slice_perm. }
  split; [|split; [by destruct Hups|split; [by destruct Hdowns|done]]].
  rewrite Htab2, filter_app.
  rewrite (filter_none_in _ new), app_nil_r.
  - apply filter_all_in. intros x Hx Hn.
    apply list_elem_of_In, in_map_iff in Hn as (a & Ha & Hin).
    unfold undone in Hin. rewrite pending_filter in Hin.
    apply list_elem_of_In, list_elem_of_filter in Hin as [Hin _].
    apply Hin. rewrite Ha. apply list_elem_of_In, in_map.
    by apply list_elem_of_In.
  - intros x Hx Hn. apply Hn. rewrite Hperm, <- Hnames.
    apply list_elem_of_In, in_map. by apply list_elem_of_In.
Qed.

(** *** The registry *)

Lemma string_ltb_total (a b : string) :
  String.ltb a b = false -> String.ltb b a = false -> a = b.
Proof.
  unfold String.ltb. intros H1 H2.
  apply String.compare_eq_iff.
  rewrite (String.compare_antisym b a) in H2.
  by destruct (String.compare a b).
Qed.

Lemma NoDup_map_inj {A B} (f : A -> B) (l : list A) (x y : A) :
  NoDup (map f l) -> x ∈ l -> y ∈ l -> f x = f y -> x = y.
Proof.
  induction l as [|z l IH]; simpl; intros Hnd Hx Hy Heq.
  - by apply elem_of_nil in Hx.
  - apply NoDup_cons in Hnd as [Hz Hnd].
    apply elem_of_cons in Hx as [->|Hx]; apply elem_of_cons in Hy as [->|Hy];
      try done.
    + exfalso. apply Hz. rewrite Heq.
      apply list_elem_of_In, in_map, list_elem_of_In, Hy.
    + exfalso. apply Hz. rewrite <- Heq.
      apply list_elem_of_In, in_map, list_elem_of_In, Hx.
    + by apply IH.
Qed.

(** Two sorted arrangements of the same elements are the same list, when
    the order tells any two of them apart. *)
Lemma sorted_arrangement_unique {A} (R : A -> A -> Prop) (l1 l2 : list A) :
  (forall x1 x2, x1 ∈ l1 -> x2 ∈ l2 -> R x1 x2 -> R x2 x1 -> x1 = x2) ->
  StronglySorted R l1 -> StronglySorted R l2 -> l1 ≡ₚ l2 -> l1 = l2.
Proof.
  intros Hasym Hl1. revert l2 Hasym.
  induction Hl1 as [|x1 l1 ? IH Hx1]; intros l2 Hasym Hl2 E.
  { symmetry. by apply Permutation_nil. }
  destruct Hl2 as [|x2 l2 ? Hx2].
  { by apply Permutation_nil_r in E. }
  assert (x1 = x2); subst.
  { rewrite Forall_forall in Hx1, Hx2.
    assert (x2 ∈ x1 :: l1) as Hx2' by (by rewrite E; left).
    assert (x1 ∈ x2 :: l2) as Hx1' by (by rewrite <-E; left).
    apply elem_of_cons in Hx1' as [?|Hx1']; [done|].
    apply elem_of_cons in Hx2' as [?|Hx2']; [done|].
    apply Hasym; [by left | by left | by apply Hx1 | by apply Hx2]. }
  f_equal. apply IH; [|done|by apply (inj (x2 ::.))].
  intros y1 y2 Hy1 Hy2. apply Hasym; by right.
Qed.

(** Two registries with the same definitions, no name twice, are sorted
    into the same slice. *)
Lemma sort_Slice_unique (less : migration Schema -> migration Schema -> bool)
      (r1 r2 : list (migration Schema)) :
  (forall a b, less a b = true -> less b a = false) ->
  (forall a b c, less a b = false -> less b c = false -> less a c = false) ->
  (forall a b, less a b = false -> less b a = false -> Name a = Name b) ->
  r1 ≡ₚ r2 -> NoDup (map Name r1) ->
  sort_Slice less r1 = sort_Slice less r2.
Proof.
  intros Hasym Htrans Htotal Hperm Hnd.
  apply (sorted_arrangement_unique
           (fun a b : migration Schema => less b a = false)).
  - intros a b Ha Hb Hab Hba.
    apply (NoDup_map_inj Name r1); try done.
    + by apply (sort_by_name_elem_of less).
    + rewrite Hperm. by apply (sort_by_name_elem_of less).
    + by apply Htotal.
  - by apply sort_Slice_sorted.
  - by apply sort_Slice_sorted.
  - by rewrite !sort_Slice_perm.
Qed.

(** X10. The order of registration does not matter.  Of two registries
    that hold the same definitions, no name twice, each entry point makes
    the same sorted slice, and so the same run, with the same result and
    the same effects. *)
Theorem X10_registration_order_is_irrelevant
        (faults : nat -> DBOp -> option error) (clock : nat -> Z)
        (directory names : string) (r1 r2 : list (migration Schema)) w :
  r1 ≡ₚ r2 -> NoDup (map Name r1) ->
  sort_Slice name_lt r1 = sort_Slice name_lt r2 /\
  sort_Slice name_gt r1 = sort_Slice name_gt r2 /\
  migrate faults clock directory (set_migrations r1 w) =
    migrate faults clock directory (set_migrations r2 w) /\
  rollback faults directory (set_migrations r1 w) =
    rollback faults directory (set_migrations r2 w) /\
  rollbackNamed faults directory names (set_migrations r1 w) =
    rollbackNamed faults directory names (set_migrations r2 w).
Proof.
  intros Hperm Hnd.
  assert (sort_Slice name_lt r1 = sort_Slice name_lt r2) as Hlt.
  { apply sort_Slice_unique; try done; unfold name_lt.
    - intros a b. apply string_ltb_asym.
    - intros a b c H1 H2. by apply (string_ltb_negtrans _ (Name b)).
    - intros a b. apply string_ltb_total. }
  assert (sort_Slice name_gt r1 = sort_Slice name_gt r2) as Hgt.
  { apply sort_Slice_unique; try done; unfold name_gt.
    - intros a b. apply string_ltb_asym.
    - intros a b c H1 H2. by apply (string_ltb_negtrans _ (Name b)).
    - intros a b H1 H2. by apply string_ltb_total. }
  split; [done|]. split; [done|].
  unfold migrate, rollback, rollbackNamed. unfold_prelude. simpl.
  unfold set_migrations. simpl. by rewrite Hlt, Hgt.
Qed.

(** X11. [UnregisterAll] and [Register] (migrate.go, lines 18-31).
    Whatever was registered before, after [UnregisterAll] and two calls of
    [Register] the registry holds the two definitions registered, in the
    order of the calls, with the functions and the option given; [Register]
    does not look at the names, so a name registered twice is there twice;
    neither touches the database or prints.  And right after
    [UnregisterAll], [migrate] on a ledger it can read finds nothing
    pending, whatever the ledger holds: it prints that all is up to date
    and returns [nil] without going for the lock. *)
Theorem X11_registry_calls
        (faults : nat -> DBOp -> option error) (clock : nat -> Z)
        (directory : string)
        (n1 n2 : string) (u1 d1 u2 d2 : option (action Schema))
        (o1 o2 : MigrationOptions) w :
  bind UnregisterAll (fun _ =>
    bind (Register n1 u1 d1 o1) (fun _ => Register n2 u2 d2 o2)) w =
    (Ok tt,
     set_migrations
       [mkMigration 0 n1 0 0 u1 d1 (opt_DisableTransaction o1);
        mkMigration 0 n2 0 0 u2 d2 (opt_DisableTransaction o2)] w) /\
  (faults (tick w) OpSelectMigrations = None ->
   bind UnregisterAll (fun _ => migrate faults clock directory) w =
     (Ok tt,
      mkWorld [] (db w) (S (tick w))
              (trace w ++ [EvDB OpSelectMigrations None])
              (stdout w ++ [Println "Migrations already up to date"]))).
Proof.
  split; [done|]. intros Hsel.
  unfold UnregisterAll, migrate. unfold_prelude. simpl. by rewrite Hsel.
Qed.

(** X12. When the query for the last batch number fails (migrate.go,
    lines 64-67; rollback.go, lines 31-34 and 91-94), each part under the
    lock returns that error as it is, without the name of a migration
    before it: nothing is printed, no action is called and the database
    is as it was. *)
Theorem X12_batch_query_failure
        (faults : nat -> DBOp -> option error) (clock : nat -> Z)
        (uncompleted completed : list (migration Schema))
        (names : list string) w (e : error) :
  faults (tick w) OpSelectMaxBatch = Some e ->
  let stopped :=
    mkWorld (migrations w) (db w) (S (tick w))
            (trace w ++ [EvDB OpSelectMaxBatch (Some e)]) (stdout w) in
  migrate_locked faults clock uncompleted w = (Err e, stopped) /\
  rollback_locked faults completed w = (Err e, stopped) /\
  rollbackNamed_locked faults completed names w = (Err e, stopped).
Proof.
  intros He. simpl.
  unfold migrate_locked, rollback_locked, rollbackNamed_locked.
  unfold_top. simpl. by rewrite He.
Qed.

End Further.

Lemma X2_witness :
  fst (migrate select_fails tick_clock "" scenario_A) =
    Err "connection refused" /\
  fst (rollback select_fails "" scenario_B) = Err "connection refused" /\
  map Name (migrations (snd (rollback select_fails "" scenario_B))) =
    ["789"; "456"; "123"; "010"] /\
  trace (snd (rollback select_fails "" scenario_B)) =
    [EvDB OpSelectMigrations (Some "connection refused")].
Proof.
  destruct (X2_ledger_read_failure select_fails tick_clock "" ""
              scenario_A "connection refused") as (Hm & _); [reflexivity|].
  destruct (X2_ledger_read_failure select_fails tick_clock "" ""
              scenario_B "connection refused") as (_ & Hr & _); [reflexivity|].
  rewrite Hm, Hr. repeat split.
Defined.

Lemma X3_witness :
  (let under_lock :=
     rollback_locked no_faults (map scan (table scenario_B_sorted))
                     scenario_B_sorted in
   filter (fun x => row_batch x ≠ 5) (table (snd under_lock)) =
     [mkRow 1 "123" 4 0] /\
   mkRow 3 "789" 5 0 ∉ table (snd under_lock)).
Proof.
  destruct (X3_rollback_locked_last_batch_only no_faults scenario_B_sorted
              (Ok tt)
              (snd (rollback_locked no_faults
                      (map scan (table scenario_B_sorted))
                      scenario_B_sorted)))
    as (_ & Hkeep & _ & Hgone).
  - apply (definitions_preserve_ledger ["789"; "456"; "123"; "010"]).
  - unfold names_unique. apply (bool_decide_unpack _). vm_compute. exact I.
  - vm_compute; reflexivity.
  - split.
    + etransitivity; [exact Hkeep | vm_compute; reflexivity].
    + apply (Hgone eq_refl).
      * vm_compute; discriminate.
      * apply list_elem_of_In. simpl. tauto.
      * reflexivity.
      * apply (bool_decide_unpack _). vm_compute. exact I.
Defined.

Lemma X6_witness :
  rollbackNamed_locked no_faults (map scan (table scenario_C_sorted))
                       (listed_names "B,A") scenario_C_sorted =
  rollbackNamed_locked no_faults (map scan (table scenario_C_sorted))
                       (listed_names "A, B, A") scenario_C_sorted.
Proof.
  apply (X6_listed_names_count_as_a_set no_faults).
  intros n. change (listed_names "B,A") with ["B"; "A"].
  change (listed_names "A, B, A") with ["A"; "B"; "A"].
  rewrite !elem_of_cons. tauto.
Defined.

Lemma X7_witness :
  (let out := run_down no_faults (mkMigration 0 "123" 0 0
                (Some creating_then_erring) (Some creating_then_erring) false)
                (scenario_erring false) in
   fst out = Err "error" /\ schema (db (snd out)) = false) /\
  (let out := run_down no_faults (mkMigration 0 "123" 0 0
                (Some creating_then_erring) (Some creating_then_erring) true)
                (scenario_erring true) in
   fst out = Err "error" /\ schema (db (snd out)) = true).
Proof.
  split; cbv zeta.
  - destruct (X7_transaction_policy no_faults
                (mkMigration 0 "123" 0 0 (Some creating_then_erring)
                             (Some creating_then_erring) false)
                (scenario_erring false)) as [_ Hdown].
    destruct (Hdown _ _ (surjective_pairing _)) as [Htx _].
    destruct (Htx eq_refl) as [Hfail _].
    split; [reflexivity|].
    rewrite Hfail; [reflexivity | vm_compute; discriminate].
  - destruct (X7_transaction_policy no_faults
                (mkMigration 0 "123" 0 0 (Some creating_then_erring)
                             (Some creating_then_erring) true)
                (scenario_erring true)) as [_ Hdown].
    destruct (Hdown _ _ (surjective_pairing _)) as [_ Hno].
    destruct (Hno eq_refl _ eq_refl) as (Hdb & Hr & _).
    split; [reflexivity|]. rewrite Hdb. reflexivity.
Defined.

Lemma X8_witness :
  exists w',
    migrate_step ledger_writes_fail tick_clock 1 (definition "A")
                 scenario_A_sorted =
      (Err (fmt_Errorf_name "A" "read-only"), w') /\
    db w' = db scenario_A_sorted /\ ups (trace w') = ["A"] /\
    inserts (trace w') = [].
Proof.
  destruct (X8_ledger_write_outside_transaction ledger_writes_fail tick_clock
              1 (definition "A") scenario_A_sorted "read-only")
    as [Hup _]; [by split|].
  destruct (Hup noopMigration (db scenario_A_sorted) eq_refl eq_refl eq_refl)
    as (w' & Hrun & Hdb & Hups & Hins & _).
  exists w'. by repeat split.
Defined.

Lemma X9_witness :
  let migrated :=
    snd (migrate_locked no_faults tick_clock
           (filterMigrations (migrations scenario_B_sorted)
                             (map scan (table scenario_B_sorted)) false)
           scenario_B_sorted) in
  let undone :=
    snd (rollback_locked no_faults (map scan (table migrated))
           (set_migrations (sort_Slice name_gt (migrations migrated))
                           migrated)) in
  map row_key (table migrated) =
    [("123", 4); ("456", 5); ("789", 5); ("010", 6)] /\
  table undone = table scenario_B_sorted.
Proof.
  cbv zeta. split; [vm_compute; reflexivity|].
  eapply (X9_rollback_undoes_migrate no_faults tick_clock scenario_B_sorted).
  - apply (definitions_preserve_ledger ["789"; "456"; "123"; "010"]).
  - apply (definitions_preserve_ledger ["789"; "456"; "123"; "010"]).
  - unfold batches_positive. repeat constructor.
  - vm_compute. reflexivity.
  - vm_compute. discriminate.
  - vm_compute. reflexivity.
  - vm_compute. reflexivity.
Defined.

Lemma X10_witness :
  migrate no_faults tick_clock "" scenario_A =
  migrate no_faults tick_clock "" scenario_A_sorted.
Proof.
  apply (X10_registration_order_is_irrelevant no_faults tick_clock "" ""
           [definition "B"; definition "A"] [definition "A"; definition "B"]
           scenario_A).
  - apply Permutation_swap.
  - apply (bool_decide_unpack _). vm_compute. exact I.
Defined.

Lemma X11_witness :
  bind UnregisterAll (fun _ => migrate no_faults tick_clock "") scenario_B =
    (Ok tt,
     mkWorld [] (db scenario_B) 1 [EvDB OpSelectMigrations None]
             [Println "Migrations already up to date"]).
Proof.
  destruct (X11_registry_calls no_faults tick_clock "" "" "" None None None
              None (mkMigrationOptions false) (mkMigrationOptions false)
              scenario_B) as [_ Hrun].
  rewrite (Hrun eq_refl). reflexivity.
Defined.

Lemma X12_witness :
  migrate_locked batch_query_fails tick_clock
                 [definition "A"; definition "B"] scenario_A_sorted =
    (Err "connection reset",
     mkWorld [definition "A"; definition "B"] (db scenario_A_sorted) 1
             [EvDB OpSelectMaxBatch (Some "connection reset")] []).
Proof.
  apply (X12_batch_query_failure batch_query_fails tick_clock
           [definition "A"; definition "B"] [] [] scenario_A_sorted
           "connection reset").
  reflexivity.
Defined.
